(** * A documentation crawler and its companion tools

    Shallow embedding of [crawl_links.py] (URL normalisation, scope filter,
    breadth-first crawl loop, command line entry point), of
    [combine_texts.py] (concatenation of text exports) and of the pure
    functions of [extract_text.py], together with the properties of these
    programs that are stated in the specification and further properties
    that the code shows.

    Python [str] values are modelled as [string]; every character is one
    code point below 256.  [set] objects are [gset string], the
    [collections.deque] and the output file are lists.  Exceptions are an
    explicit [result] type.  The parts of CPython's [urllib.parse] that the
    crawler calls are transcribed from [Lib/urllib/parse.py] (3.11). *)

From Stdlib Require Import Ascii String.
From stdpp Require Import gmap strings list sorting.

Set Default Proof Using "Type".

(** ** Exceptions *)

Inductive exn : Type :=
  | ValueError (msg : string)
  | OSError (kind : string).

Inductive result (A : Type) : Type :=
  | Ok (a : A)
  | Raise (e : exn).
Arguments Ok {A} a.
Arguments Raise {A} e.

#[global] Instance result_ret : MRet result := λ A a, Ok a.
#[global] Instance result_bind : MBind result := λ A B k m,
  match m with
  | Ok a => k a
  | Raise e => Raise e
  end.

(** ** Python string methods used by the sources *)

Module PyStr.

Definition chr_eqb (a b : ascii) : bool := Ascii.eqb a b.

(** [s.startswith(p)] *)
Fixpoint startswith (s p : string) {struct p} : bool :=
  match p with
  | EmptyString => true
  | String c p' =>
      match s with
      | EmptyString => false
      | String d s' => chr_eqb c d && startswith s' p'
      end
  end.

(** [s.endswith(c)] for a one-character [c] *)
Fixpoint endswith (s : string) (c : ascii) : bool :=
  match s with
  | EmptyString => false
  | String a EmptyString => chr_eqb a c
  | String _ s' => endswith s' c
  end.

(** [s.rstrip(c)] for a one-character [c] *)
Fixpoint rstrip (s : string) (c : ascii) : string :=
  match s with
  | EmptyString => EmptyString
  | String a s' =>
      match rstrip s' c with
      | EmptyString => if chr_eqb a c then EmptyString else String a EmptyString
      | r => String a r
      end
  end.

(** [c in s] *)
Fixpoint contains (s : string) (c : ascii) : bool :=
  match s with
  | EmptyString => false
  | String a s' => chr_eqb a c || contains s' c
  end.

(** [s.find(c)]; [None] stands for [-1] *)
Fixpoint find (s : string) (c : ascii) : option nat :=
  match s with
  | EmptyString => None
  | String a s' => if chr_eqb a c then Some 0 else S <$> find s' c
  end.

(** [s.rfind(c)] *)
Fixpoint rfind (s : string) (c : ascii) : option nat :=
  match s with
  | EmptyString => None
  | String a s' =>
      match rfind s' c with
      | Some i => Some (S i)
      | None => if chr_eqb a c then Some 0 else None
      end
  end.

(** [s[:n]] *)
Fixpoint slice_to (n : nat) (s : string) : string :=
  match n, s with
  | S n', String a s' => String a (slice_to n' s')
  | _, _ => EmptyString
  end.

(** [s[n:]] *)
Fixpoint slice_from (n : nat) (s : string) : string :=
  match n, s with
  | S n', String _ s' => slice_from n' s'
  | _, _ => s
  end.

(** [s.find(c, start)] for [start <= len(s)] *)
Definition find_from (s : string) (c : ascii) (start : nat) : option nat :=
  (λ i, start + i) <$> find (slice_from start s) c.

(** [s.partition(c)]: the text before the first [c], whether [c] was
    found, and the text after it *)
Fixpoint partition (s : string) (c : ascii) : string * bool * string :=
  match s with
  | EmptyString => (EmptyString, false, EmptyString)
  | String a s' =>
      if chr_eqb a c then (EmptyString, true, s')
      else let '(b, f, r) := partition s' c in (String a b, f, r)
  end.

(** [s.rpartition(c)[2]]: the text after the last [c] *)
Definition after_last (s : string) (c : ascii) : string :=
  match rfind s c with
  | Some i => slice_from (S i) s
  | None => s
  end.

(** [s.split(c)] *)
Fixpoint split (s : string) (c : ascii) : list string :=
  match s with
  | EmptyString => [EmptyString]
  | String a s' =>
      if chr_eqb a c then EmptyString :: split s' c
      else match split s' c with
           | h :: t => String a h :: t
           | [] => [String a EmptyString]
           end
  end.

(** [sep.join(l)] *)
Fixpoint join (sep : string) (l : list string) : string :=
  match l with
  | [] => EmptyString
  | [x] => x
  | x :: l' => x +:+ sep +:+ join sep l'
  end.

Definition is_upper (a : ascii) : bool :=
  (65 <=? nat_of_ascii a) && (nat_of_ascii a <=? 90).
Definition is_lower (a : ascii) : bool :=
  (97 <=? nat_of_ascii a) && (nat_of_ascii a <=? 122).
Definition is_digit (a : ascii) : bool :=
  (48 <=? nat_of_ascii a) && (nat_of_ascii a <=? 57).

(** [a.isascii() and a.isalpha()] *)
Definition is_ascii_alpha (a : ascii) : bool := is_upper a || is_lower a.

Definition lower_chr (a : ascii) : ascii :=
  if is_upper a then ascii_of_nat (nat_of_ascii a + 32) else a.

(** [s.lower()], on strings of ASCII characters *)
Fixpoint lower (s : string) : string :=
  match s with
  | EmptyString => EmptyString
  | String a s' => String (lower_chr a) (lower s')
  end.

(** [all(p(c) for c in s)] *)
Fixpoint all (p : ascii → bool) (s : string) : bool :=
  match s with
  | EmptyString => true
  | String a s' => p a && all p s'
  end.

(** removal of every character satisfying [p] *)
Fixpoint remove (p : ascii → bool) (s : string) : string :=
  match s with
  | EmptyString => EmptyString
  | String a s' => if p a then remove p s' else String a (remove p s')
  end.

(** [s.lstrip(chars)], the set of characters given as a test *)
Fixpoint lstrip (p : ascii → bool) (s : string) : string :=
  match s with
  | EmptyString => EmptyString
  | String a s' => if p a then lstrip p s' else s
  end.

(** [s.rstrip(chars)], the set of characters given as a test *)
Fixpoint rstrip_set (p : ascii → bool) (s : string) : string :=
  match s with
  | EmptyString => EmptyString
  | String a s' =>
      match rstrip_set p s' with
      | EmptyString => if p a then EmptyString else String a EmptyString
      | r => String a r
      end
  end.

Definition len (s : string) : nat := String.length s.

Definition nonempty (s : string) : bool :=
  match s with EmptyString => false | _ => true end.

(** [n] copies of the character [c] *)
Fixpoint replicate (n : nat) (c : ascii) : string :=
  match n with
  | 0 => EmptyString
  | S n' => String c (replicate n' c)
  end.

End PyStr.

(** ** The functions of [urllib.parse] called by the crawler *)

(** [_check_bracketed_host] validates a bracketed host with the [ipaddress]
    module, which is not modelled: the development is parametric in its
    outcome, [None] when it returns and [Some msg] when it raises
    [ValueError(msg)]. *)
Class UrlLib := { check_bracketed_host : string → option string }.

Module UrlParse.
Import PyStr.

Record SplitResult := mkSplit {
  scheme : string; netloc : string; path : string;
  query : string; fragment : string }.

Record ParseResult := mkParse {
  p_scheme : string; p_netloc : string; p_path : string;
  p_params : string; p_query : string; p_fragment : string }.

Definition mem (s : string) (l : list string) : bool :=
  existsb (String.eqb s) l.

Definition uses_relative : list string :=
  [""; "ftp"; "http"; "gopher"; "nntp"; "imap"; "wais"; "file"; "https";
   "shttp"; "mms"; "prospero"; "rtsp"; "rtspu"; "sftp"; "svn"; "svn+ssh";
   "ws"; "wss"].

Definition uses_netloc : list string :=
  [""; "ftp"; "http"; "gopher"; "nntp"; "telnet"; "imap"; "wais"; "file";
   "mms"; "https"; "shttp"; "snews"; "prospero"; "rtsp"; "rtspu"; "rsync";
   "svn"; "svn+ssh"; "sftp"; "nfs"; "git"; "git+ssh"; "ws"; "wss"].

Definition uses_params : list string :=
  [""; "ftp"; "hdl"; "prospero"; "http"; "imap"; "https"; "shttp"; "rtsp";
   "rtspu"; "sip"; "sips"; "mms"; "sftp"; "tel"].

(** membership in [scheme_chars] *)
Definition scheme_char (a : ascii) : bool :=
  is_lower a || is_upper a || is_digit a
  || chr_eqb a "+" || chr_eqb a "-" || chr_eqb a ".".

(** membership in [_WHATWG_C0_CONTROL_OR_SPACE] *)
Definition c0_control_or_space (a : ascii) : bool := nat_of_ascii a <=? 32.

(** membership in [_UNSAFE_URL_BYTES_TO_REMOVE]: tab, CR, LF *)
Definition unsafe_url_byte (a : ascii) : bool :=
  chr_eqb a "009" || chr_eqb a "013" || chr_eqb a "010".

Definition splitnetloc (url : string) (start : nat) : string * string :=
  let delim :=
    foldl (λ delim c,
             match find_from url c start with
             | Some wdelim => Nat.min delim wdelim
             | None => delim
             end)
          (len url) ["/"; "?"; "#"]%char in
  (slice_to (delim - start) (slice_from start url), slice_from delim url).

Definition splitparams (url : string) : string * string :=
  if contains url "/" then
    match find_from url ";" (default 0 (rfind url "/")) with
    | Some i => (slice_to i url, slice_from (S i) url)
    | None => (url, "")
    end
  else
    match find url ";" with
    | Some i => (slice_to i url, slice_from (S i) url)
    | None => (slice_to (len url - 1) url, url)
    end.

Definition invalid_ipv6 : exn := ValueError "Invalid IPv6 URL".

Section parse.
Context `{UrlLib}.

Definition check_bracketed_netloc (netloc : string) : result unit :=
  let hostname_and_port := after_last netloc "@" in
  let '(before_bracket, have_open_br, bracketed) :=
    partition hostname_and_port "[" in
  hostname ←
    (if have_open_br then
       if nonempty before_bracket then Raise invalid_ipv6
       else
         let '(hostname, _, port) := partition bracketed "]" in
         if nonempty port && negb (startswith port ":")
         then Raise invalid_ipv6 else Ok hostname
     else
       let '(hostname, _, _) := partition hostname_and_port ":" in
       Ok hostname);
  match check_bracketed_host hostname with
  | Some msg => Raise (ValueError msg)
  | None => Ok ()
  end.

(** [_checknetloc] is left out: it only refuses a netloc with a character
    that NFKC normalisation expands to a delimiter, and no code point
    below 256 is such a character. *)
Definition urlsplit (url : string) (scheme : string) : result SplitResult :=
  let url := lstrip c0_control_or_space url in
  let scheme :=
    rstrip_set c0_control_or_space (lstrip c0_control_or_space scheme) in
  let url := remove unsafe_url_byte url in
  let scheme := remove unsafe_url_byte scheme in
  let '(scheme, url) :=
    match find url ":", url with
    | Some (S i), String u0 _ =>
        if is_ascii_alpha u0 && all scheme_char (slice_to (S i) url)
        then (lower (slice_to (S i) url), slice_from (S (S i)) url)
        else (scheme, url)
    | _, _ => (scheme, url)
    end in
  '(netloc, url) ←
    (if String.eqb (slice_to 2 url) "//" then
       let '(netloc, url) := splitnetloc url 2 in
       if (contains netloc "[" && negb (contains netloc "]"))
          || (contains netloc "]" && negb (contains netloc "["))
       then Raise invalid_ipv6
       else
         _ ← (if contains netloc "[" && contains netloc "]"
              then check_bracketed_netloc netloc else Ok ());
         Ok (netloc, url)
     else Ok ("", url));
  let '(url, fragment) :=
    if contains url "#"
    then let '(u, _, f) := partition url "#" in (u, f)
    else (url, "") in
  let '(url, query) :=
    if contains url "?"
    then let '(u, _, q) := partition url "?" in (u, q)
    else (url, "") in
  Ok (mkSplit scheme netloc url query fragment).

Definition urlparse (url : string) (scheme : string) : result ParseResult :=
  r ← urlsplit url scheme;
  let '(url, params) :=
    if mem r.(UrlParse.scheme) uses_params && contains r.(path) ";"
    then splitparams r.(path)
    else (r.(path), "") in
  Ok (mkParse r.(UrlParse.scheme) r.(netloc) url params
              r.(query) r.(fragment)).
End parse.

Definition urlunsplit (c : SplitResult) : string :=
  let url := c.(path) in
  let url :=
    if nonempty c.(netloc)
       || (nonempty c.(scheme) && mem c.(scheme) uses_netloc
           && negb (String.eqb (slice_to 2 url) "//"))
    then
      let url :=
        if nonempty url && negb (String.eqb (slice_to 1 url) "/")
        then "/" +:+ url else url in
      "//" +:+ c.(netloc) +:+ url
    else url in
  let url := if nonempty c.(scheme) then c.(scheme) +:+ ":" +:+ url else url in
  let url := if nonempty c.(query) then url +:+ "?" +:+ c.(query) else url in
  let url :=
    if nonempty c.(fragment) then url +:+ "#" +:+ c.(fragment) else url in
  url.

Definition urlunparse (c : ParseResult) : string :=
  let url :=
    if nonempty c.(p_params) then c.(p_path) +:+ ";" +:+ c.(p_params)
    else c.(p_path) in
  urlunsplit (mkSplit c.(p_scheme) c.(p_netloc) url c.(p_query) c.(p_fragment)).

(** [segments[1:-1] = filter(None, segments[1:-1])] *)
Definition filter_inner (segments : list string) : list string :=
  match segments with
  | first :: rest =>
      match reverse rest with
      | last :: inner_rev =>
          first :: List.filter nonempty (reverse inner_rev) ++ [last]
      | [] => segments
      end
  | [] => segments
  end.

(** the loop of [urljoin] that removes dot segments *)
Definition resolve_segments (segments : list string) : list string :=
  foldl (λ resolved_path seg,
           if String.eqb seg ".." then removelast resolved_path
           else if String.eqb seg "." then resolved_path
           else resolved_path ++ [seg])
        [] segments.

Definition urljoin `{UrlLib} (base url : string) : result string :=
  if negb (nonempty base) then Ok url
  else if negb (nonempty url) then Ok base
  else
    b ← urlparse base "";
    u ← urlparse url b.(p_scheme);
    let scheme := u.(p_scheme) in
    if negb (String.eqb scheme b.(p_scheme)) || negb (mem scheme uses_relative)
    then Ok url
    else if mem scheme uses_netloc && nonempty u.(p_netloc)
    then Ok (urlunparse u)
    else
      let netloc := if mem scheme uses_netloc then b.(p_netloc) else u.(p_netloc) in
      if negb (nonempty u.(p_path)) && negb (nonempty u.(p_params)) then
        let query := if nonempty u.(p_query) then u.(p_query) else b.(p_query) in
        Ok (urlunparse (mkParse scheme netloc b.(p_path) b.(p_params)
                                query u.(p_fragment)))
      else
        let base_parts := split b.(p_path) "/" in
        let base_parts :=
          if nonempty (List.last base_parts "")
          then removelast base_parts else base_parts in
        let segments :=
          if String.eqb (slice_to 1 u.(p_path)) "/"
          then split u.(p_path) "/"
          else filter_inner (base_parts ++ split u.(p_path) "/") in
        let resolved_path := resolve_segments segments in
        let resolved_path :=
          if mem (List.last segments "") ["."; ".."]
          then resolved_path ++ [""] else resolved_path in
        let joined := join "/" resolved_path in
        Ok (urlunparse (mkParse scheme netloc
                                (if nonempty joined then joined else "/")
                                u.(p_params) u.(p_query) u.(p_fragment))).

End UrlParse.

(** ** [crawl_links.py] *)

Import PyStr UrlParse.

(** The network and the HTML parser are the environment of the crawler:
    [fetch_html url] is what the function of this name returns for [url],
    the body, or the empty string when the request fails with one of the
    errors that the function catches ([URLError], [HTTPError],
    [UnicodeDecodeError]).  An exception that it does not catch, as the
    [ValueError] of [urllib.request] for a URL without a scheme, ends the
    crawl where it is raised: the model has the states of such a run up
    to that call, and not its end.  [anchor_hrefs html] lists the [href]
    values that [AnchorCollector] gathers from [html], in the order in
    which the resulting set is iterated. *)
Class Web := {
  fetch_html : string → string;
  anchor_hrefs : string → list string }.

Definition normalize_url `{UrlLib} (url : string) : result string :=
  parsed ← urlsplit url "";
  let cleaned :=
    mkSplit parsed.(scheme) parsed.(netloc) parsed.(path) parsed.(query) "" in
  let normalized := urlunsplit cleaned in
  if endswith normalized "/" && (len cleaned.(scheme) + 3 <? len normalized)
  then Ok (rstrip normalized "/")
  else Ok normalized.

(** the [for raw in excludes] loop of [is_allowed] *)
Fixpoint is_allowed_loop (relative_path : string) (excludes : list string) : bool :=
  match excludes with
  | [] => true
  | raw :: excludes' =>
      let normalized := if startswith raw "/" then raw else "/" +:+ raw in
      if startswith relative_path normalized then false
      else is_allowed_loop relative_path excludes'
  end.

Definition is_allowed `{UrlLib} (url base_prefix : string) (excludes : list string)
  : result bool :=
  if negb (startswith url base_prefix) then Ok false
  else
    base_parts ← urlsplit base_prefix "";
    url_parts ← urlsplit url "";
    let relative_path := slice_from (len base_parts.(path)) url_parts.(path) in
    Ok (is_allowed_loop relative_path excludes).

(** What the crawl does besides updating its own variables. *)
Inductive event : Type :=
  | Fetch (url : string)
  | Sleep.

(** The variables of [crawl].  [sink] holds the URLs written to the output
    file, one per [sink.write], oldest first; [trace] the fetches and
    delays performed, oldest first. *)
Record crawl_state := mkState {
  queue : list string;
  visited : gset string;
  discovered : gset string;
  sink : list string;
  trace : list event }.

Definition scope_violation (normalized_start normalized_base : string) : exn :=
  ValueError ("Start URL " +:+ normalized_start
              +:+ " is outside the permitted prefix " +:+ normalized_base).

Definition is_http (url : string) : bool :=
  startswith url "http://" || startswith url "https://".

Section crawl.
Context `{UrlLib} `{Web}.
Variables (normalized_base : string) (excludes : list string).

(** the body of [for href in parser.hrefs()] *)
Definition visit_href (current href : string) (st : crawl_state)
  : result crawl_state :=
  absolute ← urljoin (current +:+ "/") href;
  absolute ← normalize_url absolute;
  if negb (is_http absolute) then Ok st
  else
    allowed ← is_allowed absolute normalized_base excludes;
    if negb allowed then Ok st
    else if bool_decide (absolute ∈ discovered st) then Ok st
    else Ok (mkState (queue st ++ [absolute])
                     (visited st)
                     ({[absolute]} ∪ discovered st)
                     (sink st ++ [absolute])
                     (trace st)).

(** the [for] loop; an exception leaves the state reached so far *)
Fixpoint for_hrefs (current : string) (hrefs : list string) (st : crawl_state)
  : crawl_state * option exn :=
  match hrefs with
  | [] => (st, None)
  | href :: hrefs' =>
      match visit_href current href st with
      | Ok st' => for_hrefs current hrefs' st'
      | Raise e => (st, Some e)
      end
  end.

Inductive loop_step : Type :=
  | Exit
  | Continue (st : crawl_state)
  | Abort (e : exn) (st : crawl_state).

(** one evaluation of the [while queue] test and of the loop body *)
Definition iteration (st : crawl_state) : loop_step :=
  match queue st with
  | [] => Exit
  | current :: pending =>
      if bool_decide (current ∈ visited st)
      then Continue (mkState pending (visited st) (discovered st)
                             (sink st) (trace st))
      else
        let st := mkState pending ({[current]} ∪ visited st) (discovered st)
                          (sink st) (trace st ++ [Fetch current]) in
        let html := fetch_html current in
        if negb (nonempty html) then Continue st
        else
          match for_hrefs current (anchor_hrefs html) st with
          | (st, None) =>
              Continue (mkState (queue st) (visited st) (discovered st)
                                (sink st) (trace st ++ [Sleep]))
          | (st, Some e) => Abort e st
          end
  end.

End crawl.

Inductive outcome : Type :=
  | Returned (st : crawl_state)
  | Raised (e : exn) (st : crawl_state).

Definition empty_state : crawl_state := mkState [] ∅ ∅ [] [].

(** the variables of [crawl] when the loop is entered *)
Definition initial_state (normalized_start : string) : crawl_state :=
  mkState [normalized_start] ∅ {[normalized_start]} [normalized_start] [].

Section crawl_run.
Context `{UrlLib} `{Web}.

(** the [while] loop, run for at most [fuel] iterations *)
Fixpoint drain (normalized_base : string) (excludes : list string)
  (fuel : nat) (st : crawl_state) : option outcome :=
  match fuel with
  | 0 => None
  | S fuel' =>
      match iteration normalized_base excludes st with
      | Exit => Some (Returned st)
      | Continue st' => drain normalized_base excludes fuel' st'
      | Abort e st' => Some (Raised e st')
      end
  end.

(** the statements of [crawl] before the loop *)
Definition seed (start_url base_prefix : string) (excludes : list string)
  : result (string * crawl_state) :=
  normalized_base ← normalize_url base_prefix;
  joined ← urljoin (normalized_base +:+ "/") start_url;
  normalized_start ← normalize_url joined;
  allowed ← is_allowed normalized_start normalized_base excludes;
  if negb allowed
  then Raise (scope_violation normalized_start normalized_base)
  else Ok (normalized_base, initial_state normalized_start).

Definition crawl (fuel : nat) (start_url base_prefix : string)
  (excludes : list string) : option outcome :=
  match seed start_url base_prefix excludes with
  | Raise e => Some (Raised e empty_state)
  | Ok (normalized_base, st) => drain normalized_base excludes fuel st
  end.

(** [main]: the exit status and the lines of the output file, which
    [open(args.output, "w")] creates empty.  [crawl] raises nothing but
    [ValueError], which the handler of [main] turns into the status 1. *)
Definition main (fuel : nat) (start_url base_prefix : string)
  (exclude : list string) : option (nat * list string) :=
  match crawl fuel start_url (rstrip base_prefix "/") exclude with
  | None => None
  | Some (Returned st) => Some (0, sink st)
  | Some (Raised _ st) => Some (1, sink st)
  end.

End crawl_run.

(** ** [combine_texts.py] *)

Module Combine.

(** A [pathlib] path is the list of its parts; the first part of an
    absolute path is ["/"].  The file system maps the entries, named by
    their components below the root directory, to what they are; it is a
    tree, the parent of an entry being a directory, and the working
    directory is one of its directories. *)
Inductive entry : Type :=
  | File (content : string)
  | Dir.

#[global] Instance entry_eq_dec : EqDecision entry.
Proof. solve_decision. Defined.

Abbreviation filesystem := (gmap (list string) entry).

(** What a second handle reads from a file that is still open for
    writing: the part of the written text that has left the buffers. *)
Class FileBuffer := { flushed : string → string }.

Definition nl : string := String "010" EmptyString.

(** [Path(s)]: empty and ["."] components are dropped ([".."] is kept).
    POSIX paths that begin with exactly two slashes, which [pathlib] gives
    a root of their own, are not used here. *)
Definition Path (s : string) : list string :=
  let parts :=
    List.filter (λ c, nonempty c && negb (String.eqb c ".")) (split s "/") in
  if startswith s "/" then "/" :: parts else parts.

(** [str(p)] for a relative path with at least one part *)
Definition to_str (p : list string) : string := join "/" p.

(** The root directory is the empty key. *)
Definition is_directory (fs : filesystem) (k : list string) : bool :=
  bool_decide (k = []) || bool_decide (fs !! k = Some Dir).

Definition present (fs : filesystem) (k : list string) : bool :=
  bool_decide (k = []) || bool_decide (is_Some (fs !! k)).

(** The entry that the operating system reaches from the working directory
    [cwd] through the path [p].  It takes the components one after the
    other: a component, [".."] too, is looked up in what the components
    before it lead to, which has to be a directory that exists; [".."]
    leads to the parent of that directory.  What the last component leads
    to need not exist.  There are no symbolic links. *)
Definition resolve (fs : filesystem) (cwd p : list string)
  : result (list string) :=
  let '(start, components) :=
    match p with "/" :: rest => ([], rest) | _ => (cwd, p) end in
  foldl (λ reached c,
           k ← reached;
           if is_directory fs k
           then Ok (if String.eqb c ".." then removelast k else k ++ [c])
           else Raise (OSError (if present fs k then "NotADirectoryError"
                                else "FileNotFoundError")))
        (Ok start) components.

(** [p.exists()] and [p.is_dir()]: the errors of the look-up mean no *)
Definition path_exists (fs : filesystem) (cwd p : list string) : bool :=
  match resolve fs cwd p with
  | Ok k => present fs k
  | Raise _ => false
  end.

Definition is_dir (fs : filesystem) (cwd p : list string) : bool :=
  match resolve fs cwd p with
  | Ok k => is_directory fs k
  | Raise _ => false
  end.

Definition is_prefix (p k : list string) : bool :=
  bool_decide (take (length p) k = p).

Definition endswith_str (s suffix : string) : bool :=
  (len suffix <=? len s)
  && String.eqb (slice_from (len s - len suffix) s) suffix.

(** [p.parent] *)
Definition parent (p : list string) : list string :=
  match p with
  | ["/"] => p
  | _ => removelast p
  end.

(** [p < q] on paths: the lists of parts are compared, part by part *)
Fixpoint path_ltb (p q : list string) : bool :=
  match p, q with
  | _, [] => false
  | [], _ :: _ => true
  | a :: p', b :: q' =>
      if String.ltb a b then true
      else if String.eqb a b then path_ltb p' q'
      else false
  end.

Definition path_le (p q : list string) : Prop := path_ltb q p = false.

#[global] Instance path_le_dec : RelDecision path_le.
Proof. intros p q. unfold path_le. apply _. Defined.

Section tool.
Context `{FileBuffer}.
Variables (fs : filesystem) (cwd : list string).

(** [root.rglob("*.txt")]: nothing when [root] is not a directory, and
    else every entry below [root] whose name matches *)
Definition rglob_txt (root : list string) : list (list string) :=
  match resolve fs cwd root with
  | Ok r =>
      if is_directory fs r then
        (λ k, root ++ drop (length r) k) <$>
          List.filter (λ k, is_prefix r k && (length r <? length k)
                            && endswith_str (List.last k "") ".txt")
                      (map_to_list fs).*1
      else []
  | Raise _ => []
  end.

Definition gather_text_files (root : list string) : list (list string) :=
  merge_sort path_le (rglob_txt root).

(** [text_file.read_text()] while the output file, the entry [out], is
    open and [written] has been written to it *)
Definition read_text (out : list string) (written : string)
  (text_file : list string) : result string :=
  k ← resolve fs cwd text_file;
  if bool_decide (k = out) then Ok (flushed written)
  else
    match fs !! k with
    | Some (File content) => Ok content
    | Some Dir => Raise (OSError "IsADirectoryError")
    | None =>
        Raise (OSError (if bool_decide (k = []) then "IsADirectoryError"
                        else "FileNotFoundError"))
    end.

(** the [for text_file in gather_text_files(root)] loop; the result is the
    text written, the count, and the exception that ended the loop *)
Fixpoint write_all (root output out : list string)
  (text_files : list (list string))
  (written : string) (count : nat) : string * nat * option exn :=
  match text_files with
  | [] => (written, count, None)
  | text_file :: rest =>
      if bool_decide (text_file = output)
      then write_all root output out rest written count
      else
        let written :=
          written +:+ "# Source: "
                  +:+ to_str (drop (length root) text_file) +:+ nl in
        match read_text out written text_file with
        | Raise e => (written, count, Some e)
        | Ok content =>
            write_all root output out rest
                      (written +:+ content +:+ nl +:+ nl) (S count)
        end
  end.

End tool.

(** [os.mkdir(p)] *)
Definition os_mkdir (fs : filesystem) (cwd p : list string)
  : result filesystem :=
  k ← resolve fs cwd p;
  if present fs k then Raise (OSError "FileExistsError")
  else Ok (<[k := Dir]> fs).

Definition is_not_found (e : exn) : bool :=
  match e with
  | OSError kind => String.eqb kind "FileNotFoundError"
  | _ => false
  end.

(** [q.mkdir(parents=True, exist_ok=True)] for the path [q] of the first [n]
    parts of [p], as [pathlib] does it: [os.mkdir(q)]; when that finds no
    parent directory, the same for [q.parent] and [os.mkdir(q)] once more;
    another error is passed over when [q] is a directory.  The result is
    the file system that is left and the exception raised, if any. *)
Fixpoint mkdir_parents (fs : filesystem) (cwd p : list string) (n : nat)
  : filesystem * option exn :=
  let q := take n p in
  match os_mkdir fs cwd q with
  | Ok fs' => (fs', None)
  | Raise e =>
      if is_not_found e then
        match n with
        | S n' =>
            if bool_decide (parent q = q) then (fs, Some e)
            else
              match mkdir_parents fs cwd p n' with
              | (fs1, Some e1) => (fs1, Some e1)
              | (fs1, None) =>
                  match os_mkdir fs1 cwd q with
                  | Ok fs2 => (fs2, None)
                  | Raise e2 =>
                      if is_not_found e2 then (fs1, Some e2)
                      else if is_dir fs1 cwd q then (fs1, None)
                      else (fs1, Some e2)
                  end
              end
        | 0 => (fs, Some e)
        end
      else if is_dir fs cwd q then (fs, None)
      else (fs, Some e)
  end.

(** [p.open("w")]: the entry that is opened, and the file system with the
    file created or emptied *)
Definition open_w (fs : filesystem) (cwd p : list string)
  : result (list string * filesystem) :=
  k ← resolve fs cwd p;
  if is_directory fs k then Raise (OSError "IsADirectoryError")
  else Ok (k, <[k := File ""]> fs).

(** How a run of the tool ends: [main] returns [status] after it has
    combined [count] files, or [parser.error] ends it before any work, or
    an exception that nothing catches ends it; [fs] is the file system
    that it leaves. *)
Inductive run : Type :=
  | Exited (status : nat) (count : nat) (fs : filesystem)
  | UsageError
  | Crashed (e : exn) (fs : filesystem).

Definition main `{FileBuffer} (fs : filesystem) (cwd : list string)
  (input_dir output_file : string) : run :=
  let root := Path input_dir in
  if negb (path_exists fs cwd root) then UsageError
  else
    let output_path := Path output_file in
    match mkdir_parents fs cwd (parent output_path)
                        (length (parent output_path)) with
    | (fs, Some e) => Crashed e fs
    | (fs, None) =>
        match open_w fs cwd output_path with
        | Raise e => Crashed e fs
        | Ok (out, fs) =>
            match write_all fs cwd root output_path out
                            (gather_text_files fs cwd root) "" 0 with
            | (written, count, None) =>
                Exited 0 count (<[out := File written]> fs)
            | (written, _, Some e) =>
                Crashed e (<[out := File written]> fs)
            end
        end
    end.

(** The text that the tool is meant to produce for the files [text_files],
    in this order: for each file the marker line with its path relative to
    [root], its content, and a blank line. *)
Definition file_text (fs : filesystem) (cwd text_file : list string) : string :=
  match resolve fs cwd text_file with
  | Ok k =>
      match fs !! k with
      | Some (File content) => content
      | _ => ""
      end
  | Raise _ => ""
  end.

Definition combined (fs : filesystem) (cwd root : list string)
  (text_files : list (list string)) : string :=
  foldr (λ text_file rest,
           "# Source: " +:+ to_str (drop (length root) text_file) +:+ nl
           +:+ file_text fs cwd text_file +:+ nl +:+ nl +:+ rest)
        "" text_files.

End Combine.

(** ** Concrete environments *)

(** A library whose bracketed-host check accepts every host. *)
Definition lenient_lib : UrlLib := {| check_bracketed_host := λ _, None |}.

(** A site given as a table from URLs to the hrefs of their pages.  A page
    is rendered as ["<html>"] followed by its hrefs, separated by spaces;
    a URL that is not in the table fails to fetch. *)
Definition render (hrefs : list string) : string := join " " ("<html>" :: hrefs).

Definition site_fetch (pages : list (string * list string)) (url : string) : string :=
  match List.find (λ p, String.eqb p.1 url) pages with
  | Some p => render p.2
  | None => ""
  end.

Definition site (pages : list (string * list string)) : Web :=
  {| fetch_html := site_fetch pages;
     anchor_hrefs := λ html, tail (split html " ") |}.

Definition docs : string := "https://x.com/docs".

(** Three levels: the root links to [a] and [b], [a] to [c] and back to
    the root, [b] to [d] and to [a]. *)
Definition three_levels : Web :=
  site [(docs, ["a"; "b"]);
        ("https://x.com/docs/a", ["c"; "/docs"]);
        ("https://x.com/docs/b", ["d"; "../a/"]);
        ("https://x.com/docs/a/c", []);
        ("https://x.com/docs/b/d", [])].

(** The root links to [b] and [c]; [b] cannot be fetched; [c] links to [d]. *)
Definition failing_sibling : Web :=
  site [(docs, ["b"; "c"]); ("https://x.com/docs/c", ["d"])].

(** The page of the root has a link whose authority opens a bracket. *)
Definition malformed_href : Web :=
  site [(docs, ["guide"; "http://["; "faq"])].

(** Nothing can be fetched. *)
Definition offline : Web := site [].

(** A working directory [/w] with the exports [pages/a.txt] and
    [pages/sub/b.txt]. *)
Definition exports : Combine.filesystem :=
  list_to_map [(["w"], Combine.Dir);
               (["w"; "pages"], Combine.Dir);
               (["w"; "pages"; "a.txt"], Combine.File "X");
               (["w"; "pages"; "sub"], Combine.Dir);
               (["w"; "pages"; "sub"; "b.txt"], Combine.File "Y")].

(** the text of a file after a run of the combine tool *)
Definition content_after (r : Combine.run) (k : list string) : option string :=
  match r with
  | Combine.Exited _ _ fs | Combine.Crashed _ fs =>
      match fs !! k with
      | Some (Combine.File content) => Some content
      | _ => None
      end
  | Combine.UsageError => None
  end.

(** the file system that a run of the combine tool started on [fs] leaves *)
Definition fs_after (fs : Combine.filesystem) (r : Combine.run)
  : Combine.filesystem :=
  match r with
  | Combine.Exited _ _ fs' | Combine.Crashed _ fs' => fs'
  | Combine.UsageError => fs
  end.

(** what the making of the directories of the path [p] leaves of a file
    system [fs]: its entries, and new directories that first parts of [p]
    lead to *)
Definition extends_with (fs fs' : Combine.filesystem) (cwd p : list string)
  : Prop :=
  (∀ k e, fs !! k = Some e → fs' !! k = Some e)
  ∧ (∀ k e, fs !! k = None → fs' !! k = Some e →
            e = Combine.Dir
            ∧ ∃ n, Combine.resolve fs' cwd (take n p) = Ok k).

(** A handle whose writes reach the file at once. *)
Definition unbuffered : Combine.FileBuffer :=
  {| Combine.flushed := λ written, written |}.


(** ** Absolute URLs

    The URLs [scheme://host/path?query#fragment] that the crawler meets,
    written from their components; [well_formed] is the shape for which
    [urlsplit] finds exactly these components. *)

Definition host_char (a : ascii) : bool :=
  negb (chr_eqb a "/" || chr_eqb a "?" || chr_eqb a "#"
        || chr_eqb a "[" || chr_eqb a "]" || unsafe_url_byte a).

Definition path_char (a : ascii) : bool :=
  negb (chr_eqb a "?" || chr_eqb a "#" || unsafe_url_byte a).

Definition query_char (a : ascii) : bool :=
  negb (chr_eqb a "#" || unsafe_url_byte a).

Definition fragment_char (a : ascii) : bool := negb (unsafe_url_byte a).

Definition opt_part (delim : string) (o : option string) : string :=
  match o with
  | Some x => delim +:+ x
  | None => ""
  end.

Definition absolute_url (s h p : string) (q f : option string) : string :=
  s +:+ "://" +:+ h +:+ p +:+ opt_part "?" q +:+ opt_part "#" f.

Definition well_formed (s h p : string) (q f : option string) : bool :=
  match s with String a _ => is_ascii_alpha a | EmptyString => false end
  && all scheme_char s
  && nonempty h && all host_char h
  && (negb (nonempty p) || startswith p "/") && all path_char p
  && all query_char (default "" q) && all fragment_char (default "" f).

(** a query that is not empty and consists of slashes only *)
Definition slash_only (q : string) : bool :=
  nonempty q && negb (nonempty (rstrip q "/")).

(** the text after a host: empty, or opened by a delimiter *)
Definition starts_with_delim (rest : string) : Prop :=
  rest = "" ∨ ∃ d rest', rest = String d rest' ∧ (d = "/" ∨ d = "?" ∨ d = "#")%char.

(** the query that survives [urlunsplit]: an empty query is dropped *)
Definition kept_query (q : option string) : option string :=
  match q with
  | Some x => if nonempty x then Some x else None
  | None => None
  end.

(** ** The scope filter in the words of the specification *)

Definition literal_prefix (p s : string) : Prop := ∃ rest, s = p +:+ rest.

(** an exclude entry, normalised to start with a slash *)
Definition exclude_entry (raw : string) : string :=
  if startswith raw "/" then raw else "/" +:+ raw.

(** The candidate shares the literal prefix, and no exclude entry is a
    prefix of the candidate path with the base path length removed. *)
Definition in_scope (url base_prefix : string) (excludes : list string)
  (url_path base_path : string) : Prop :=
  literal_prefix base_prefix url
  ∧ ∀ raw, raw ∈ excludes →
      ¬ literal_prefix (exclude_entry raw) (slice_from (len base_path) url_path).

(** ** The states of a crawl and the link graph *)

Section crawl_graph.
Context `{UrlLib} `{Web}.
Variables (normalized_base : string) (excludes : list string).

(** the URL that an href found on the page of [current] leads to: [None]
    when the crawler drops it before it looks at [discovered] *)
Definition link_target (current href : string) : result (option string) :=
  absolute ← urljoin (current +:+ "/") href;
  absolute ← normalize_url absolute;
  if negb (is_http absolute) then Ok None
  else
    allowed ← is_allowed absolute normalized_base excludes;
    Ok (if allowed : bool then Some absolute else None).

(** [edge u w]: the page fetched for [u] has a link that the crawler
    follows to [w] *)
Definition edge (u w : string) : Prop :=
  fetch_html u ≠ ""
  ∧ ∃ href, href ∈ anchor_hrefs (fetch_html u) ∧ link_target u href = Ok (Some w).

(** [walk start k v]: [v] is reached from [start] along [k] edges *)
Inductive walk (start : string) : nat → string → Prop :=
  | walk_O : walk start 0 start
  | walk_S k u w : walk start k u → edge u w → walk start (S k) w.

(** [depth start k v]: [k] is the least number of edges from [start] to [v] *)
Definition depth (start : string) (k : nat) (v : string) : Prop :=
  walk start k v ∧ ∀ j, walk start j v → k ≤ j.

(** the state of the loop body after [current] has been taken from the
    queue, marked and fetched *)
Definition after_fetch (current : string) (pending : list string)
  (st : crawl_state) : crawl_state :=
  mkState pending ({[current]} ∪ visited st) (discovered st)
          (sink st) (trace st ++ [Fetch current]).

(** the states in which the [while] test is evaluated *)
Inductive reachable (start : string) : crawl_state → Prop :=
  | reach_init : reachable start (initial_state start)
  | reach_step st st' :
      reachable start st →
      iteration normalized_base excludes st = Continue st' →
      reachable start st'.

(** these states, and the states inside the [for] loop after some of the
    hrefs of the page have been handled *)
Inductive observable (start : string) : crawl_state → Prop :=
  | obs_head st : reachable start st → observable start st
  | obs_for st current pending handled rest st' :
      reachable start st →
      queue st = current :: pending →
      current ∉ visited st →
      fetch_html current ≠ "" →
      anchor_hrefs (fetch_html current) = handled ++ rest →
      for_hrefs normalized_base excludes current handled
                (after_fetch current pending st) = (st', None) →
      observable start st'.

(** the URLs of a list come in the order of their depth *)
Definition by_depth (start : string) (l : list string) : Prop :=
  ∀ i j u v ku kv,
    i < j → l !! i = Some u → l !! j = Some v →
    depth start ku u → depth start kv v → ku ≤ kv.

(** What holds whenever the [while] test is evaluated. *)
Record crawl_inv (start : string) (st : crawl_state) : Prop := {
  inv_done : ∃ handled,
    sink st = handled ++ queue st
    ∧ visited st = list_to_set handled
    ∧ ∀ u w, u ∈ handled → edge u w → w ∈ sink st;
  inv_nodup : NoDup (sink st);
  inv_discovered : discovered st = list_to_set (sink st);
  inv_depth : ∀ v, v ∈ sink st → ∃ k, depth start k v;
  inv_sorted : by_depth start (sink st);
  inv_width : ∀ h pending dh v k,
    queue st = h :: pending → depth start dh h →
    v ∈ sink st → depth start k v → k ≤ S dh;
  inv_layers : ∀ h pending dh v k,
    queue st = h :: pending → depth start dh h →
    walk start k v → k ≤ dh → v ∈ sink st }.

(** the state in which the [while] test is evaluated for the [n]-th time
    after [st], or the last such state when the loop ends earlier *)
Fixpoint run_iterations (n : nat) (st : crawl_state) : crawl_state :=
  match n with
  | 0 => st
  | S n' =>
      match iteration normalized_base excludes st with
      | Continue st' => run_iterations n' st'
      | _ => st
      end
  end.

End crawl_graph.

(** ** Characters that a normalised URL never has *)

(** the fragment delimiter, and the tab, CR and LF that [urlsplit] removes *)
Definition dropped_char (a : ascii) : bool :=
  chr_eqb a "#" || unsafe_url_byte a.

(** ** [AnchorCollector]

    The parser of [html.parser] calls [handle_starttag] for every start
    tag, with the name of the tag and its attributes; the value of an
    attribute that is written without one is [None]. *)

Definition handle_starttag (tag : string) (attrs : list (string * option string))
  (hrefs : gset string) : gset string :=
  if negb (String.eqb tag "a") then hrefs
  else
    foldl (λ hrefs '(attr, value),
             match value with
             | Some value =>
                 if String.eqb attr "href" && nonempty value
                 then {[value]} ∪ hrefs else hrefs
             | None => hrefs
             end)
          hrefs attrs.

(** [hrefs()] after the start tags [tags] have been handled by a new
    collector *)
Definition collected_hrefs (tags : list (string * list (string * option string)))
  : gset string :=
  foldl (λ hrefs '(tag, attrs), handle_starttag tag attrs hrefs) ∅ tags.

(** ** What a trace records *)

(** the URLs fetched, oldest first *)
Definition fetches (t : list event) : list string :=
  omap (λ e, match e with Fetch url => Some url | Sleep => None end) t.

(** the URLs fetched so far are the URLs of the sink that have left the
    queue, in the order of the sink, and [visited] holds them *)
Definition fetch_inv (st : crawl_state) : Prop :=
  sink st = fetches (trace st) ++ queue st
  ∧ visited st = list_to_set (fetches (trace st)).

(** the variables of [crawl] when it returns or raises *)
Definition outcome_state (o : outcome) : crawl_state :=
  match o with Returned st | Raised _ st => st end.

(** ** [extract_text.py]

    [read_links] and [derive_output_path]; the text that [read_links] is
    given is the decoded content of the link file. *)

Module Extract.

Definition cr : ascii := "013".
Definition lf : ascii := "010".

(** [a.isspace()], for the code points below 256 *)
Definition is_space (a : ascii) : bool :=
  let n := nat_of_ascii a in
  ((9 <=? n) && (n <=? 13)) || ((28 <=? n) && (n <=? 32))
  || (n =? 133) || (n =? 160).

(** [s.strip()] *)
Definition strip (s : string) : string :=
  rstrip_set is_space (lstrip is_space s).

(** [s.strip("/")] *)
Definition strip_slashes (s : string) : string :=
  rstrip (lstrip (λ a, chr_eqb a "/") s) "/".

(** what a handle opened in text mode reads: ["\r\n"] and ["\r"] are
    translated to ["\n"] *)
Fixpoint universal_newlines (s : string) : string :=
  match s with
  | EmptyString => EmptyString
  | String a s' =>
      if chr_eqb a cr then
        String lf
          match s' with
          | String b s'' =>
              if chr_eqb b lf then universal_newlines s''
              else universal_newlines s'
          | EmptyString => EmptyString
          end
      else String a (universal_newlines s')
  end.

(** the lines that [for raw in handle] yields, each with the newline that
    ends it *)
Fixpoint readlines (s : string) : list string :=
  match s with
  | EmptyString => []
  | String a s' =>
      if chr_eqb a lf then String a EmptyString :: readlines s'
      else
        match readlines s' with
        | line :: rest => String a line :: rest
        | [] => [String a EmptyString]
        end
  end.

Definition read_links (content : string) : list string :=
  List.filter nonempty (strip <$> readlines (universal_newlines content)).

(** [base.joinpath] on its arguments: an absolute path replaces
    what precedes it *)
Definition joinpath (base : list string) (args : list string) : list string :=
  foldl (λ p arg,
           if startswith arg "/" then Combine.Path arg else p ++ Combine.Path arg)
        base args.

Definition derive_output_path `{UrlLib} (base_dir : list string) (url : string)
  : result (list string) :=
  parsed ← urlsplit url "";
  let segments :=
    List.filter nonempty (split (strip_slashes parsed.(path)) "/") in
  let segments := match segments with [] => ["index"] | _ => segments end in
  let filename := List.last segments "" in
  let '(name, _, _) := partition filename "." in
  let name := if nonempty name then name else "index" in
  let segments := removelast segments ++ [name +:+ ".txt"] in
  Ok (joinpath base_dir (parsed.(netloc) :: segments)).

End Extract.

(** the text of the link file after [crawl] has written the URLs [urls] *)
Definition sink_text (urls : list string) : string :=
  foldr (λ url rest, url +:+ Combine.nl +:+ rest) "" urls.

(** * Properties *)

(** ** Strings *)

Section string_lemmas.
Import PyStr.
Implicit Types (s t r p : string) (a c : ascii).

Lemma str_app_cons a s t : String a s +:+ t = String a (s +:+ t).
Proof. reflexivity. Qed.

Lemma str_app_nil_l t : "" +:+ t = t.
Proof. reflexivity. Qed.

Lemma str_app_nil_r s : s +:+ "" = s.
Proof. induction s as [|a s IH]; [done|]. by rewrite str_app_cons, IH. Qed.

Lemma str_app_assoc s t r : (s +:+ t) +:+ r = s +:+ (t +:+ r).
Proof. induction s as [|a s IH]; [done|]. by rewrite !str_app_cons, IH. Qed.

Lemma len_app s t : len (s +:+ t) = len s + len t.
Proof. induction s as [|a s IH]; [done|]. rewrite str_app_cons. simpl. by rewrite IH. Qed.

Lemma chr_eqb_refl a : chr_eqb a a = true.
Proof. apply Ascii.eqb_refl. Qed.

Lemma chr_eqb_true a c : chr_eqb a c = true ↔ a = c.
Proof. apply Ascii.eqb_eq. Qed.

Lemma chr_eqb_false a c : chr_eqb a c = false ↔ a ≠ c.
Proof. apply Ascii.eqb_neq. Qed.

Lemma nonempty_true s : nonempty s = true ↔ s ≠ "".
Proof. by destruct s. Qed.

Lemma nonempty_false s : nonempty s = false ↔ s = "".
Proof. by destruct s. Qed.

Lemma startswith_spec s p : startswith s p = true ↔ ∃ r, s = p +:+ r.
Proof.
  revert s. induction p as [|c p IH]; intros s; simpl.
  - split; [intros _; by exists s|done].
  - destruct s as [|d s].
    + split; [done|]. by intros [r Hr].
    + rewrite andb_true_iff, chr_eqb_true, IH. split.
      * intros [-> [r ->]]. by exists r.
      * intros [r Hr]. rewrite str_app_cons in Hr. injection Hr as -> ->. eauto.
Qed.

Lemma startswith_app s t : startswith (s +:+ t) s = true.
Proof. apply startswith_spec. eauto. Qed.

Lemma endswith_app s t c :
  endswith (s +:+ t) c = if nonempty t then endswith t c else endswith s c.
Proof.
  induction s as [|a s IH].
  - rewrite str_app_nil_l. by destruct t.
  - rewrite str_app_cons. simpl. rewrite IH.
    destruct s as [|b s].
    + rewrite str_app_nil_l. by destruct t.
    + by rewrite str_app_cons.
Qed.

Lemma rstrip_app s t c :
  rstrip (s +:+ t) c =
  match rstrip t c with
  | EmptyString => rstrip s c
  | r => s +:+ r
  end.
Proof.
  induction s as [|a s IH].
  - rewrite str_app_nil_l. by destruct (rstrip t c).
  - rewrite str_app_cons. simpl. rewrite IH.
    destruct (rstrip t c) as [|b r]; [done|].
    rewrite !str_app_cons. by destruct s.
Qed.

Lemma endswith_rstrip s c : endswith (rstrip s c) c = false.
Proof.
  induction s as [|a s IH]; [done|]. simpl.
  destruct (rstrip s c) as [|b r] eqn:E.
  - destruct (chr_eqb a c) eqn:Ea; [done|]. simpl. done.
  - done.
Qed.

Lemma rstrip_noop s c : endswith s c = false → rstrip s c = s.
Proof.
  induction s as [|a s IH]; [done|]. simpl. intros Hend.
  destruct s as [|b s].
  - simpl. by rewrite Hend.
  - rewrite IH by done. done.
Qed.

Lemma rstrip_idem s c : rstrip (rstrip s c) c = rstrip s c.
Proof. apply rstrip_noop, endswith_rstrip. Qed.

Lemma rstrip_replicate k c : rstrip (replicate k c) c = "".
Proof. induction k as [|k IH]; [done|]. simpl. by rewrite IH, chr_eqb_refl. Qed.

Lemma rstrip_app_replicate s k c : rstrip (s +:+ replicate k c) c = rstrip s c.
Proof. by rewrite rstrip_app, rstrip_replicate. Qed.

Lemma rstrip_empty_iff s c : rstrip s c = "" ↔ ∃ k, s = replicate k c.
Proof.
  split.
  - induction s as [|a s IH]; [by exists 0|]. simpl.
    destruct (rstrip s c) as [|b r]; [|done].
    destruct (chr_eqb a c) eqn:Ea; [|done]. intros _.
    apply chr_eqb_true in Ea as ->. destruct IH as [k ->]; [done|]. by exists (S k).
  - intros [k ->]. apply rstrip_replicate.
Qed.

Lemma rstrip_decompose s c : ∃ k, s = rstrip s c +:+ replicate k c.
Proof.
  induction s as [|a s [k IH]]; [by exists 0|]. simpl.
  destruct (rstrip s c) as [|b r] eqn:E.
  - destruct (chr_eqb a c) eqn:Ea.
    + apply chr_eqb_true in Ea as ->. exists (S k). rewrite str_app_nil_l in *.
      simpl. by rewrite <-IH.
    + exists k. rewrite str_app_cons, str_app_nil_l. by rewrite str_app_nil_l in IH; rewrite <-IH.
  - exists k. by rewrite str_app_cons, <-IH.
Qed.

Lemma contains_app s t c : contains (s +:+ t) c = contains s c || contains t c.
Proof.
  induction s as [|a s IH]; [done|]. rewrite str_app_cons. simpl.
  by rewrite IH, orb_assoc.
Qed.

Lemma all_app f s t : all f (s +:+ t) = all f s && all f t.
Proof.
  induction s as [|a s IH]; [done|]. rewrite str_app_cons. simpl.
  by rewrite IH, andb_assoc.
Qed.

Lemma all_impl (f g : ascii → bool) s :
  (∀ a, f a = true → g a = true) → all f s = true → all g s = true.
Proof.
  intros Hfg. induction s as [|a s IH]; [done|]. simpl.
  rewrite !andb_true_iff. intros [Ha Hs]. split; auto.
Qed.

Lemma all_not_contains (f : ascii → bool) s c :
  f c = false → all f s = true → contains s c = false.
Proof.
  intros Hc. induction s as [|a s IH]; [done|]. simpl.
  rewrite andb_true_iff. intros [Ha Hs]. rewrite IH by done.
  destruct (chr_eqb a c) eqn:E; [|done].
  apply chr_eqb_true in E as ->. congruence.
Qed.

Lemma remove_noop (f : ascii → bool) s :
  all (λ a, negb (f a)) s = true → remove f s = s.
Proof.
  induction s as [|a s IH]; [done|]. simpl. rewrite andb_true_iff.
  intros [Ha Hs]. apply negb_true_iff in Ha. by rewrite Ha, IH.
Qed.

Lemma find_app_notin s t c :
  contains s c = false → find (s +:+ t) c = (λ i, len s + i) <$> find t c.
Proof.
  induction s as [|a s IH]; intros Hs.
  - rewrite str_app_nil_l. by destruct (find t c).
  - rewrite str_app_cons. simpl in *. apply orb_false_iff in Hs as [-> Hs].
    rewrite IH by done. by destruct (find t c).
Qed.

Lemma find_notin s c : contains s c = false → find s c = None.
Proof.
  induction s as [|a s IH]; [done|]. simpl. intros [-> Hs]%orb_false_iff.
  by rewrite IH.
Qed.

Lemma partition_app_notin s t c :
  contains s c = false → partition (s +:+ String c t) c = (s, true, t).
Proof.
  induction s as [|a s IH]; intros Hs.
  - rewrite str_app_nil_l. simpl. by rewrite chr_eqb_refl.
  - rewrite str_app_cons. simpl in *. apply orb_false_iff in Hs as [-> Hs].
    by rewrite IH.
Qed.

Lemma slice_to_app s t : slice_to (len s) (s +:+ t) = s.
Proof. induction s as [|a s IH]; [by destruct t|]. rewrite str_app_cons. simpl. by rewrite IH. Qed.

Lemma slice_from_app s t : slice_from (len s) (s +:+ t) = t.
Proof. induction s as [|a s IH]; [by destruct t|]. by rewrite str_app_cons. Qed.

Lemma slice_from_add n s t : slice_from (len s + n) (s +:+ t) = slice_from n t.
Proof. induction s as [|a s IH]; [done|]. by rewrite str_app_cons. Qed.

End string_lemmas.

(** ** Parsing and normalising absolute URLs *)

Section absolute_urls.
Context `{UrlLib}.
Implicit Types (s h p : string) (q f : option string) (a c : ascii).

Lemma alpha_not_c0 a : is_ascii_alpha a = true → c0_control_or_space a = false.
Proof. destruct a as [[] [] [] [] [] [] [] []]; by vm_compute. Qed.

Lemma scheme_char_safe a : scheme_char a = true → negb (unsafe_url_byte a) = true.
Proof. destruct a as [[] [] [] [] [] [] [] []]; by vm_compute. Qed.

Lemma scheme_char_not_colon a : scheme_char a = true → chr_eqb a ":" = false.
Proof. destruct a as [[] [] [] [] [] [] [] []]; by vm_compute. Qed.

Lemma lower_chr_scheme a : scheme_char a = true → scheme_char (lower_chr a) = true.
Proof. destruct a as [[] [] [] [] [] [] [] []]; by vm_compute. Qed.

Lemma lower_chr_alpha a : is_ascii_alpha a = true → is_ascii_alpha (lower_chr a) = true.
Proof. destruct a as [[] [] [] [] [] [] [] []]; by vm_compute. Qed.

Lemma lower_chr_idem a : lower_chr (lower_chr a) = lower_chr a.
Proof. destruct a as [[] [] [] [] [] [] [] []]; by vm_compute. Qed.

Lemma lower_idem s : lower (lower s) = lower s.
Proof. induction s as [|a s IH]; [done|]. simpl. by rewrite lower_chr_idem, IH. Qed.

Lemma len_lower s : len (lower s) = len s.
Proof. induction s as [|a s IH]; [done|]. simpl. f_equal. apply IH. Qed.

Lemma all_scheme_lower s : all scheme_char s = true → all scheme_char (lower s) = true.
Proof.
  induction s as [|a s IH]; [done|]. simpl. rewrite !andb_true_iff.
  intros [Ha Hs]. split; [by apply lower_chr_scheme|auto].
Qed.

Lemma host_char_spec a :
  host_char a = true →
  chr_eqb a "/" = false ∧ chr_eqb a "?" = false ∧ chr_eqb a "#" = false
  ∧ chr_eqb a "[" = false ∧ chr_eqb a "]" = false ∧ unsafe_url_byte a = false.
Proof.
  unfold host_char. rewrite negb_true_iff, !orb_false_iff. tauto.
Qed.

Lemma host_no c h :
  host_char c = false → all host_char h = true → contains h c = false.
Proof. apply all_not_contains. Qed.

Lemma splitnetloc_host h rest :
  all host_char h = true → starts_with_delim rest →
  splitnetloc ("//" +:+ h +:+ rest) 2 = (h, rest).
Proof.
  intros Hh Hrest. unfold splitnetloc, find_from.
  change ("//" +:+ h +:+ rest) with (String "/" (String "/" (h +:+ rest))).
  change (slice_from 2 (String "/" (String "/" (h +:+ rest)))) with (h +:+ rest).
  cbn [foldl].
  rewrite !find_app_notin by (by apply host_no).
  assert (len (String "/" (String "/" (h +:+ rest))) = 2 + len h + len rest) as ->.
  { cbn [len String.length]. fold (len (h +:+ rest)). rewrite len_app. lia. }
  assert (∃ d, d = 2 + len h ∧
    foldl (λ delim o, match o with Some w => Nat.min delim w | None => delim end)
      (2 + len h + len rest)
      [(λ i, 2 + i) <$> ((λ i, len h + i) <$> find rest "/");
       (λ i, 2 + i) <$> ((λ i, len h + i) <$> find rest "?");
       (λ i, 2 + i) <$> ((λ i, len h + i) <$> find rest "#")] = d) as (d & Hd & Hfold).
  { eexists. split; [|reflexivity]. cbn [foldl].
    destruct Hrest as [->|(d & rest' & -> & Hd)].
    - cbn. lia.
    - cbn [find len String.length].
      destruct Hd as [->| [->| ->]]; cbn [chr_eqb Ascii.eqb Bool.eqb fmap option_fmap option_map];
        repeat (match goal with |- context [find ?r ?c] => destruct (find r c) end;
                cbn [fmap option_fmap option_map]); lia. }
  cbn [foldl] in Hfold. rewrite Hfold, Hd.
  replace (2 + len h - 2) with (len h) by lia.
  rewrite slice_to_app. f_equal.
  change (slice_from (2 + len h) (String "/" (String "/" (h +:+ rest))))
    with (slice_from (len h) (h +:+ rest)).
  apply slice_from_app.
Qed.

Lemma well_formed_spec s h p q f :
  well_formed s h p q f = true →
  (∃ a s', s = String a s' ∧ is_ascii_alpha a = true)
  ∧ all scheme_char s = true
  ∧ h ≠ "" ∧ all host_char h = true
  ∧ (p = "" ∨ ∃ p', p = String "/" p') ∧ all path_char p = true
  ∧ all query_char (default "" q) = true
  ∧ all fragment_char (default "" f) = true.
Proof.
  unfold well_formed. rewrite !andb_true_iff, orb_true_iff, negb_true_iff.
  intros [[[[[[[Hs1 Hs2] Hh1] Hh2] Hp1] Hp2] Hq] Hf].
  repeat split; try done.
  - destruct s as [|a s']; [done|]. eauto.
  - by apply nonempty_true.
  - destruct Hp1 as [Hp1|Hp1].
    + left. by destruct p.
    + right. apply startswith_spec in Hp1 as [r ->]. eauto.
Qed.

Lemma opt_part_delim (d : ascii) (o : option string) rest :
  (d = "/" ∨ d = "?" ∨ d = "#")%char → starts_with_delim rest →
  starts_with_delim (opt_part (String d "") o +:+ rest).
Proof.
  intros Hd Hrest. destruct o as [x|]; [|done].
  right. exists d, (x +:+ rest). split; [|done].
  unfold opt_part. by rewrite str_app_assoc.
Qed.

Lemma urlsplit_absolute s h p q f default_scheme :
  well_formed s h p q f = true →
  urlsplit (absolute_url s h p q f) default_scheme =
  Ok (mkSplit (lower s) h p (default "" q) (default "" f)).
Proof.
  intros ((a & s' & -> & Ha) & Hs & Hh & Hhc & Hp & Hpc & Hq & Hf)%well_formed_spec.
  unfold urlsplit, absolute_url. cbv zeta.
  set (tail := h +:+ p +:+ opt_part "?" q +:+ opt_part "#" f).
  assert (lstrip c0_control_or_space (String a s' +:+ "://" +:+ tail)
          = String a s' +:+ "://" +:+ tail) as ->.
  { rewrite str_app_cons. simpl. by rewrite alpha_not_c0. }
  assert (contains (String a s') ":" = false) as Hcolon.
  { eapply all_not_contains; [|exact Hs]. done. }
  remember (String a s') as s eqn:Es.
  assert (all (λ c, negb (unsafe_url_byte c)) (s +:+ "://" +:+ tail) = true)
    as Hsafe.
  { unfold tail. rewrite !all_app, !andb_true_iff. split_and!.
    - eapply all_impl, Hs. apply scheme_char_safe.
    - done.
    - eapply all_impl, Hhc. intros c Hc%host_char_spec.
      apply negb_true_iff. tauto.
    - eapply all_impl, Hpc. unfold path_char. intros c.
      rewrite !negb_true_iff, !orb_false_iff. tauto.
    - destruct q as [x|]; [|done]. unfold opt_part. rewrite all_app.
      apply andb_true_iff. split; [done|]. eapply all_impl, Hq.
      unfold query_char. intros c. rewrite !negb_true_iff, !orb_false_iff. tauto.
    - destruct f as [x|]; [|done]. unfold opt_part. rewrite all_app.
      apply andb_true_iff. split; [done|]. exact Hf. }
  rewrite (remove_noop _ _ Hsafe).
  rewrite find_app_notin by done.
  change ("://" +:+ tail) with (String ":" ("//" +:+ tail)).
  cbn [find chr_eqb Ascii.eqb Bool.eqb fmap option_fmap option_map].
  rewrite Nat.add_0_r.
  assert (len s = S (len s')) as Hlen by (by subst s).
  rewrite Hlen.
  assert (s +:+ String ":" ("//" +:+ tail)
          = String a (s' +:+ String ":" ("//" +:+ tail))) as Hs0 by (by subst s).
  rewrite Hs0 at 1. rewrite Ha. cbn [andb]. rewrite <-Hlen.
  rewrite slice_to_app, Hs.
  replace (S (len s)) with (len s + 1) by lia.
  rewrite slice_from_add.
  change (slice_from 1 (String ":" ("//" +:+ tail))) with ("//" +:+ tail).
  change (slice_to 2 ("//" +:+ tail)) with "//". cbn [String.eqb Ascii.eqb Bool.eqb].
  unfold tail. rewrite splitnetloc_host; [|done|]; last first.
  { destruct Hp as [->|[p' ->]].
    - rewrite str_app_nil_l. apply opt_part_delim; [tauto|].
      rewrite <-(str_app_nil_r (opt_part "#" f)). apply opt_part_delim; [tauto|by left].
    - right. eexists _, _. split; [apply str_app_cons|tauto]. }
  rewrite (host_no "[" h), (host_no "]" h) by done.
  cbn [andb orb negb mbind result_bind].
  assert (contains p "#" = false) as Hp1.
  { eapply all_not_contains; [|exact Hpc]. done. }
  assert (contains p "?" = false) as Hp2.
  { eapply all_not_contains; [|exact Hpc]. done. }
  assert (contains (p +:+ opt_part "?" q) "#" = false) as Hpq.
  { rewrite contains_app, Hp1. destruct q as [x|]; [|done].
    unfold opt_part. rewrite contains_app. cbn.
    eapply all_not_contains; [|exact Hq]. done. }
  assert ((if contains (p +:+ opt_part "?" q +:+ opt_part "#" f) "#"
           then let '(u, _, f0) :=
                  partition (p +:+ opt_part "?" q +:+ opt_part "#" f) "#" in (u, f0)
           else (p +:+ opt_part "?" q +:+ opt_part "#" f, ""))
          = (p +:+ opt_part "?" q, default "" f)) as ->.
  { rewrite <-str_app_assoc. destruct f as [x|]; cbn [opt_part default].
    - rewrite contains_app. change ("#" +:+ x) with (String "#" x).
      cbn [contains chr_eqb Ascii.eqb Bool.eqb orb]. rewrite orb_true_r.
      by rewrite partition_app_notin.
    - by rewrite str_app_nil_r, Hpq. }
  destruct q as [x|]; cbn [opt_part default].
  - rewrite contains_app. change ("?" +:+ x) with (String "?" x).
    cbn [contains chr_eqb Ascii.eqb Bool.eqb orb]. rewrite orb_true_r.
    by rewrite partition_app_notin.
  - by rewrite str_app_nil_r, Hp2.
Qed.

Lemma lower_nonempty s : s ≠ "" → lower s ≠ "".
Proof. by destruct s. Qed.

Lemma urlunsplit_absolute s h p q :
  s ≠ "" → h ≠ "" → (p = "" ∨ ∃ p', p = String "/" p') →
  urlunsplit (mkSplit s h p (default "" q) "") = absolute_url s h p (kept_query q) None.
Proof.
  intros Hs%nonempty_true Hh%nonempty_true Hp.
  unfold urlunsplit, absolute_url. cbn [scheme netloc path query fragment nonempty].
  rewrite Hs, Hh. cbn [orb].
  assert ((if nonempty p && negb (String.eqb (slice_to 1 p) "/")
           then "/" +:+ p else p) = p) as ->.
  { by destruct Hp as [->|[p' ->]]. }
  cbn [opt_part]. rewrite str_app_nil_r.
  destruct q as [x|]; cbn [from_option id kept_query nonempty];
    [|by rewrite ?str_app_nil_r, ?str_app_assoc].
  destruct (nonempty x); cbn [opt_part]; by rewrite ?str_app_nil_r, ?str_app_assoc.
Qed.

Lemma len_absolute_url s h p q f :
  h ≠ "" → len s + 3 < len (absolute_url s h p q f).
Proof.
  intros Hh. unfold absolute_url. rewrite !len_app.
  destruct h; [done|]. cbn [len String.length]. lia.
Qed.

Lemma normalize_absolute s h p q f :
  well_formed s h p q f = true →
  normalize_url (absolute_url s h p q f) =
  Ok (rstrip (absolute_url (lower s) h p (kept_query q) None) "/").
Proof.
  intros Hwf. unfold normalize_url. rewrite urlsplit_absolute by done.
  apply well_formed_spec in Hwf as ((a & s' & -> & Ha) & Hs & Hh & Hhc & Hp & _).
  cbn [mbind result_bind scheme netloc path query].
  rewrite urlunsplit_absolute by done.
  destruct (endswith _ "/") eqn:Hend; cbn [andb].
  - pose proof (len_absolute_url (lower (String a s')) h p (kept_query q) None Hh) as Hlen.
    apply Nat.ltb_lt in Hlen. by rewrite Hlen.
  - by rewrite rstrip_noop.
Qed.

Lemma all_rstrip (g : ascii → bool) s c : all g s = true → all g (rstrip s c) = true.
Proof.
  destruct (rstrip_decompose s c) as [k Hk]. rewrite Hk at 1.
  rewrite all_app, andb_true_iff. tauto.
Qed.


Lemma rstrip_head a s c :
  rstrip (String a s) c = "" ∨ ∃ r, rstrip (String a s) c = String a r.
Proof.
  simpl. destruct (rstrip s c); [|eauto]. destruct (chr_eqb a c); eauto.
Qed.

Lemma endswith_contains s c : endswith s c = true → contains s c = true.
Proof.
  induction s as [|a s IH]; [done|]. simpl. destruct s as [|b s].
  - intros ->. done.
  - intros Hs. rewrite IH by done. apply orb_true_r.
Qed.

Lemma well_formed_intro s h p q f :
  (∃ a s', s = String a s' ∧ is_ascii_alpha a = true) →
  all scheme_char s = true →
  h ≠ "" → all host_char h = true →
  (p = "" ∨ ∃ p', p = String "/" p') → all path_char p = true →
  all query_char (default "" q) = true →
  all fragment_char (default "" f) = true →
  well_formed s h p q f = true.
Proof.
  intros (a & s' & -> & Ha) Hs Hh%nonempty_true Hhc Hp Hpc Hq Hf.
  unfold well_formed. rewrite Ha, Hs, Hh, Hhc, Hpc, Hq, Hf.
  by destruct Hp as [->|[p' ->]].
Qed.

Lemma well_formed_lower s h p q f :
  well_formed s h p q f = true → well_formed (lower s) h p q f = true.
Proof.
  intros ((a & s' & -> & Ha) & Hs & Hrest)%well_formed_spec.
  apply well_formed_intro; try tauto.
  - eexists _, _. split; [done|]. by apply lower_chr_alpha.
  - by apply all_scheme_lower.
Qed.

Lemma host_prefix_no_slash s h :
  h ≠ "" → all host_char h = true → endswith (s +:+ "://" +:+ h) "/" = false.
Proof.
  intros Hh%nonempty_true Hhc. rewrite !endswith_app, Hh.
  destruct (endswith h "/") eqn:E; [|done].
  apply endswith_contains in E. by rewrite (host_no "/" h) in E.
Qed.

(** On a well-formed URL, stripping the slashes at the end of the
    recomposed URL gives a well-formed URL again. *)
Lemma rstrip_absolute s h p q :
  well_formed s h p q None = true → slash_only (default "" q) = false →
  ∃ p' q', rstrip (absolute_url s h p (kept_query q) None) "/"
           = absolute_url s h p' q' None
           ∧ well_formed s h p' q' None = true ∧ kept_query q' = q'.
Proof.
  intros Hwf Hq.
  pose proof Hwf as (Hs1 & Hs & Hh & Hhc & Hp & Hpc & Hqc & _)%well_formed_spec.
  assert (kept_query q = None ∨ ∃ x, q = Some x ∧ kept_query q = Some x
          ∧ rstrip x "/" ≠ "") as [Hk|(x & -> & Hk & Hx)].
  { destruct q as [x|]; [|by left]. cbn [from_option id kept_query] in *.
    destruct x as [|b x]; [by left|].
    right. exists (String b x). split_and!; [done..|].
    unfold slash_only in Hq. cbn [nonempty andb] in Hq.
    apply negb_false_iff in Hq. by apply nonempty_true. }
  - rewrite Hk. unfold absolute_url. cbn [opt_part]. rewrite !str_app_nil_r.
    rewrite <-!str_app_assoc, rstrip_app.
    destruct (rstrip p "/") as [|b r] eqn:Hr.
    + exists "", None. rewrite !str_app_nil_r, !str_app_assoc.
      rewrite rstrip_noop by (by apply host_prefix_no_slash).
      split_and!; [done| |done]. apply well_formed_intro; auto.
    + exists (String b r), None. rewrite !str_app_nil_r, !str_app_assoc.
      split_and!; [done| |done]. apply well_formed_intro; auto.
      * destruct Hp as [->|[p' ->]]; [done|].
        destruct (rstrip_head "/" p' "/") as [Hn|[r' Hn]]; rewrite Hn in Hr;
          [done|]. injection Hr as -> _. eauto.
      * rewrite <-Hr. by apply all_rstrip.
  - rewrite Hk. unfold absolute_url. cbn [opt_part]. rewrite !str_app_nil_r.
    rewrite <-!str_app_assoc, rstrip_app.
    destruct (rstrip x "/") as [|b r] eqn:Hr; [done|].
    exists p, (Some (String b r)). rewrite !str_app_nil_r, !str_app_assoc.
    split_and!; [done| |done]. apply well_formed_intro; auto.
    cbn [from_option id] in *. rewrite <-Hr. by apply all_rstrip.
Qed.

End absolute_urls.

(** ** [normalize_url] *)

Section normalize_url_properties.
Context `{UrlLib}.

Lemma well_formed_no_fragment s h p q f :
  well_formed s h p q f = true → well_formed s h p q None = true.
Proof.
  intros (? & ? & ? & ? & ? & ? & ? & ?)%well_formed_spec.
  by apply well_formed_intro.
Qed.

(** Whatever the input, a result that still ends in a slash is no longer
    than its scheme plus three characters: otherwise every slash at the
    end has been removed. *)
Lemma normalize_url_trailing_slash u r :
  normalize_url u = Ok r → endswith r "/" = true →
  ∃ parsed, urlsplit u "" = Ok parsed ∧ len r ≤ len parsed.(scheme) + 3.
Proof.
  unfold normalize_url. destruct (urlsplit u "") as [parsed|e]; [|done].
  cbn [mbind result_bind scheme]. intros Hr Hend. exists parsed. split; [done|].
  destruct (endswith (urlunsplit _) "/") eqn:Hn; cbn [andb] in Hr.
  - destruct (_ <? _) eqn:Hlen.
    + injection Hr as <-. by rewrite endswith_rstrip in Hend.
    + injection Hr as <-. apply Nat.ltb_ge in Hlen. done.
  - injection Hr as <-. congruence.
Qed.

(** C5: the slash of an authority root is not kept.  The length guard of
    [normalize_url] compares with the length of the scheme plus three, the
    length of [scheme://], so with any host at all the guard holds and
    [scheme://host/] loses its slash, against the comment in the code and
    the claim that a path that is exactly ["/"] keeps it. *)
Theorem normalize_url_root_slash_stripped s h :
  well_formed s h "/" None None = true →
  normalize_url (absolute_url s h "/" None None)
  = Ok (absolute_url (lower s) h "" None None).
Proof.
  intros Hwf. rewrite normalize_absolute by done. f_equal.
  apply well_formed_spec in Hwf as (_ & _ & Hh & Hhc & _).
  unfold absolute_url. cbn [opt_part kept_query]. rewrite !str_app_nil_r.
  rewrite <-!str_app_assoc. rewrite (rstrip_app_replicate _ 1 "/").
  rewrite !str_app_assoc. apply rstrip_noop. by apply host_prefix_no_slash.
Qed.

(** A query that is a slash loses it, and the question mark that is left
    goes away, with the slash of the path, on the next pass. *)
Lemma normalize_url_query_of_slashes :
  normalize_url "http://a/?/" = Ok "http://a/?"
  ∧ normalize_url "http://a/?" = Ok "http://a".
Proof. split; reflexivity. Qed.

Lemma normalize_url_example_root :
  normalize_url "https://example.com/" = Ok "https://example.com".
Proof. reflexivity. Qed.

Lemma contains_rstrip s c d : contains (rstrip s c) d = true → contains s d = true.
Proof.
  intros Hr. destruct (rstrip_decompose s c) as [k Hk]. rewrite Hk.
  by rewrite contains_app, Hr.
Qed.

Lemma absolute_url_no_question s h p :
  well_formed s h p None None = true →
  contains (absolute_url s h p None None) "?" = false.
Proof.
  intros (_ & Hs & _ & Hhc & _ & Hpc & _)%well_formed_spec.
  unfold absolute_url. cbn [opt_part]. rewrite !contains_app.
  rewrite (all_not_contains scheme_char s "?") by done.
  rewrite (host_no "?" h) by done.
  rewrite (all_not_contains path_char p "?") by done. done.
Qed.

(** C7: normalisation is not idempotent.  [rstrip("/")] acts on the whole
    recomposed URL and not on its path: on a well-formed absolute URL
    [scheme://host/path?query#fragment] whose query is a non-empty run of
    slashes it removes the query and leaves the question mark, which the
    next normalisation drops, so the second result differs from the
    first.  On every other well-formed absolute URL the second result is
    the first one. *)
Theorem normalize_url_idempotent_absolute s h p q f :
  well_formed s h p q f = true →
  ∃ r r',
    normalize_url (absolute_url s h p q f) = Ok r
    ∧ normalize_url r = Ok r'
    ∧ (slash_only (default "" q) = false → r' = r)
    ∧ (slash_only (default "" q) = true → r' ≠ r).
Proof.
  intros Hwf. rewrite normalize_absolute by done.
  apply well_formed_no_fragment, well_formed_lower in Hwf.
  destruct (slash_only (default "" q)) eqn:Hq.
  - destruct q as [x|]; [|done]. cbn [from_option id] in Hq.
    unfold slash_only in Hq. apply andb_true_iff in Hq as [Hx Hslashes].
    apply negb_true_iff, nonempty_false in Hslashes.
    pose proof Hwf as (Hs1 & Hs & Hh & Hhc & Hp & Hpc & _)%well_formed_spec.
    assert (rstrip (absolute_url (lower s) h p (kept_query (Some x)) None) "/"
            = absolute_url (lower s) h p (Some "") None) as Hr.
    { cbn [kept_query]. rewrite Hx. unfold absolute_url. cbn [opt_part].
      rewrite !str_app_nil_r. rewrite <-!str_app_assoc, rstrip_app, Hslashes.
      apply rstrip_noop. by rewrite endswith_app. }
    assert (well_formed (lower s) h p (Some "") None = true) as Hwf'.
    { by apply well_formed_intro. }
    exists (absolute_url (lower s) h p (Some "") None),
           (rstrip (absolute_url (lower s) h p None None) "/").
    split_and!; [by rewrite Hr| |done|].
    + rewrite normalize_absolute by done. by rewrite lower_idem.
    + intros _ Heq.
      assert (contains (absolute_url (lower s) h p (Some "") None) "?" = true)
        as Hyes.
      { unfold absolute_url. cbn [opt_part]. rewrite !contains_app. cbn.
        by rewrite !orb_true_r. }
      rewrite <-Heq in Hyes. apply contains_rstrip in Hyes.
      rewrite absolute_url_no_question in Hyes; [done|].
      by apply well_formed_intro.
  - destruct (rstrip_absolute _ _ _ _ Hwf Hq) as (p' & q' & Hr & Hwf' & Hq').
    eexists _, _. split_and!; [done| |done|done].
    rewrite Hr at 1. rewrite normalize_absolute by done.
    rewrite lower_idem, Hq', <-Hr. by rewrite rstrip_idem.
Qed.


End normalize_url_properties.

(** ** [is_allowed] *)

Section is_allowed_properties.
Context `{UrlLib}.

Lemma is_allowed_loop_true relative_path excludes :
  is_allowed_loop relative_path excludes = true ↔
  ∀ raw, raw ∈ excludes → ¬ literal_prefix (exclude_entry raw) relative_path.
Proof.
  induction excludes as [|raw excludes IH]; cbn [is_allowed_loop].
  - split; [|done]. intros _ raw Hraw. by apply elem_of_nil in Hraw.
  - change (if startswith raw "/" then raw else "/" +:+ raw)
      with (exclude_entry raw).
    destruct (startswith relative_path (exclude_entry raw)) eqn:Hraw.
    + split; [done|]. intros Hall. exfalso.
      apply (Hall raw); [left|]. by apply startswith_spec.
    + rewrite IH. split.
      * intros Hall raw' [->|Hin]%elem_of_cons; [|by apply Hall].
        intros Hpre%startswith_spec. congruence.
      * intros Hall raw' Hin. apply Hall. by right.
Qed.

(** C4: [is_allowed] returns true exactly when the URL has the base prefix
    as a literal prefix and no exclude entry, normalised to start with a
    slash, is a prefix of the URL path with the base path length removed;
    when it raises, a URL could not be parsed.  The prefix test is not
    aware of path segments. *)
Theorem is_allowed_spec url base_prefix excludes :
  (is_allowed url base_prefix excludes = Ok true ↔
   ∃ base_parts url_parts,
     urlsplit base_prefix "" = Ok base_parts
     ∧ urlsplit url "" = Ok url_parts
     ∧ in_scope url base_prefix excludes url_parts.(path) base_parts.(path))
  ∧ (∀ e, is_allowed url base_prefix excludes = Raise e →
          literal_prefix base_prefix url
          ∧ (urlsplit base_prefix "" = Raise e ∨ urlsplit url "" = Raise e))
  ∧ is_allowed "https://x.com/b" "https://x.com/a" [] = Ok false
  ∧ is_allowed "https://x.com/docs-internal" "https://x.com/docs" [] = Ok true.
Proof.
  split_and!; [| |reflexivity..].
  - unfold is_allowed, in_scope.
    destruct (startswith url base_prefix) eqn:Hpre; cbn [negb].
    + apply startswith_spec in Hpre.
      destruct (urlsplit base_prefix "") as [bp|e]; cbn [mbind result_bind].
      2:{ split; [done|]. by intros (? & ? & ? & _). }
      destruct (urlsplit url "") as [up|e]; cbn [mbind result_bind].
      2:{ split; [done|]. by intros (? & ? & _ & ? & _). }
      split.
      * intros [= Hloop]. exists bp, up. split_and!; [done..|].
        by apply is_allowed_loop_true.
      * intros (bp' & up' & [= <-] & [= <-] & _ & Hex).
        f_equal. by apply is_allowed_loop_true.
    + split; [done|]. intros (bp & up & _ & _ & Hp%startswith_spec & _).
      congruence.
  - intros e. unfold is_allowed.
    destruct (startswith url base_prefix) eqn:Hpre; cbn [negb]; [|done].
    apply startswith_spec in Hpre. intros He. split; [done|].
    destruct (urlsplit base_prefix "") as [bp|e1]; cbn [mbind result_bind] in He;
      [|left; congruence].
    destruct (urlsplit url "") as [up|e2]; cbn [mbind result_bind] in He;
      [done|right; congruence].
Qed.

End is_allowed_properties.

(** The same on the root path: the slash that ends the query of
    ["http://a/?/"] is stripped, and the empty query that is left
    disappears, together with the slash of the path, when the result is
    normalised again. *)
Lemma normalize_url_not_idempotent :
  @normalize_url lenient_lib "http://a/?/" = Ok "http://a/?"
  ∧ @normalize_url lenient_lib "http://a/?" = Ok "http://a".
Proof. split; reflexivity. Qed.

Lemma normalize_url_root_slash_stripped_witness :
  well_formed "https" "example.com" "/" None None = true
  ∧ @normalize_url lenient_lib "https://example.com/" = Ok "https://example.com".
Proof.
  split; [reflexivity|].
  apply (@normalize_url_root_slash_stripped lenient_lib "https" "example.com").
  reflexivity.
Defined.

Lemma normalize_url_idempotent_absolute_witness :
  well_formed "http" "a" "/p" (Some "/") None = true
  ∧ slash_only "/" = true
  ∧ ∃ r r',
      @normalize_url lenient_lib "http://a/p?/" = Ok r
      ∧ @normalize_url lenient_lib r = Ok r'
      ∧ r' ≠ r.
Proof.
  split; [reflexivity|]. split; [reflexivity|].
  destruct (@normalize_url_idempotent_absolute lenient_lib
              "http" "a" "/p" (Some "/") None eq_refl)
    as (r & r' & Hr & Hr' & _ & Hne).
  exists r, r'. split; [exact Hr|]. split; [exact Hr'|]. apply Hne. reflexivity.
Defined.



(** ** The crawl loop *)

Section crawl_properties.
Context `{UrlLib} `{Web}.
Variables (base : string) (ex : list string).


Lemma visit_href_link_target current href st :
  visit_href base ex current href st =
  match link_target base ex current href with
  | Raise e => Raise e
  | Ok None => Ok st
  | Ok (Some absolute) =>
      if bool_decide (absolute ∈ discovered st) then Ok st
      else Ok (mkState (queue st ++ [absolute]) (visited st)
                       ({[absolute]} ∪ discovered st)
                       (sink st ++ [absolute]) (trace st))
  end.
Proof.
  unfold visit_href, link_target.
  destruct (urljoin _ href) as [joined|e]; cbn [mbind result_bind]; [|done].
  destruct (normalize_url joined) as [absolute|e]; cbn [mbind result_bind]; [|done].
  destruct (is_http absolute); cbn [negb]; [|done].
  destruct (is_allowed absolute _ _) as [[]|e]; cbn [mbind result_bind negb]; done.
Qed.

(** One href either leaves the state as it is or appends one URL, which
    was not yet discovered, to the queue, to the sink and to [discovered]. *)
Lemma visit_href_step current href st st' :
  visit_href base ex current href st = Ok st' →
  st' = st
  ∨ ∃ absolute,
      link_target base ex current href = Ok (Some absolute)
      ∧ (absolute ∉ discovered st)
      ∧ st' = mkState (queue st ++ [absolute]) (visited st)
                      ({[absolute]} ∪ discovered st)
                      (sink st ++ [absolute]) (trace st).
Proof.
  rewrite visit_href_link_target.
  destruct (link_target base ex current href) as [[absolute|]|e]; [| |done].
  - case_bool_decide as Hin.
    + intros [= <-]. by left.
    + intros [= <-]. right. by exists absolute.
  - intros [= <-]. by left.
Qed.

Lemma visit_href_discovers current href st st' absolute :
  visit_href base ex current href st = Ok st' →
  link_target base ex current href = Ok (Some absolute) →
  absolute ∈ discovered st'.
Proof.
  rewrite visit_href_link_target. intros Hv Ht. rewrite Ht in Hv.
  case_bool_decide as Hin; injection Hv as <-; [done|].
  cbn. set_solver.
Qed.

(** The [for] loop appends to the queue and to the sink the new URLs
    [news]; when no exception ends it, every link of the page is
    discovered afterwards. *)
Lemma for_hrefs_spec current hrefs st st' oe :
  discovered st = list_to_set (sink st) →
  for_hrefs base ex current hrefs st = (st', oe) →
  ∃ news,
    queue st' = queue st ++ news
    ∧ sink st' = sink st ++ news
    ∧ discovered st' = list_to_set (sink st')
    ∧ visited st' = visited st
    ∧ trace st' = trace st
    ∧ NoDup news
    ∧ (∀ w, w ∈ news →
         (w ∉ sink st) ∧ ∃ href, href ∈ hrefs ∧ link_target base ex current href = Ok (Some w))
    ∧ (oe = None →
       ∀ href w, href ∈ hrefs → link_target base ex current href = Ok (Some w) →
                 w ∈ sink st').
Proof.
  revert st. induction hrefs as [|href hrefs IH]; intros st Hd; cbn [for_hrefs].
  - intros [= <- <-]. exists []. rewrite !app_nil_r.
    split_and!; try done.
    + constructor.
    + intros w Hw. by apply elem_of_nil in Hw.
    + intros _ href w Hhref. by apply elem_of_nil in Hhref.
  - destruct (visit_href base ex current href st) as [st1|e] eqn:Hv.
    2:{ intros [= <- <-]. exists []. rewrite !app_nil_r.
        split_and!; try done.
        - constructor.
        - intros w Hw. by apply elem_of_nil in Hw. }
    intros Hfor.
    pose proof (λ a, visit_href_discovers current href st st1 a Hv) as Hfound.
    apply visit_href_step in Hv as [->|(a & Ha & Hnew & ->)].
    + destruct (IH st Hd Hfor) as (news & Hq & Hs & Hd' & Hv' & Ht' & Hnd & Hnews & Hall).
      exists news. split_and!; try done.
      * intros w Hw. destruct (Hnews w Hw) as [? (href' & ? & ?)].
        split; [done|]. exists href'. split; [by right|done].
      * intros -> href' w [->|Hin]%elem_of_cons Hw; [|by eapply Hall].
        apply Hfound in Hw. rewrite Hd in Hw. apply elem_of_list_to_set in Hw.
        rewrite Hs. apply elem_of_app. by left.
    + rewrite Hd in Hnew. rewrite elem_of_list_to_set in Hnew.
      match type of Hfor with
      | for_hrefs _ _ _ _ ?s = _ =>
          assert (discovered s = list_to_set (sink s)) as Hd1
            by (cbn [discovered sink]; rewrite Hd, list_to_set_app_L;
                cbn [list_to_set]; by rewrite union_empty_r_L, (comm_L (∪)))
      end.
      destruct (IH _ Hd1 Hfor)
        as (news & Hq & Hs & Hd' & Hv' & Ht' & Hnd & Hnews & Hall).
      cbn in Hq, Hs, Hv', Ht'.
      exists (a :: news). rewrite <-!app_assoc in Hq, Hs. split_and!; try done.
      * constructor; [|done]. intros Hin. destruct (Hnews a Hin) as [Hn _].
        apply Hn. cbn. apply elem_of_app. right. by left.
      * intros w [->|Hw]%elem_of_cons.
        -- split; [done|]. exists href. split; [by left|done].
        -- destruct (Hnews w Hw) as [Hn (href' & ? & ?)]. cbn in Hn. split.
           ++ intros Hin. apply Hn. apply elem_of_app. by left.
           ++ exists href'. split; [by right|done].
      * intros -> href' w [->|Hin]%elem_of_cons Hw; [|by eapply Hall].
        rewrite Ha in Hw. injection Hw as <-. rewrite Hs.
        apply elem_of_app. right. by left.
Qed.

Lemma depth_unique start k k' v :
  depth base ex start k v → depth base ex start k' v → k = k'.
Proof. intros [Hw Hmin] [Hw' Hmin']. apply Nat.le_antisymm; auto. Qed.

Lemma depth_start start : depth base ex start 0 start.
Proof. split; [constructor|]. intros j _. lia. Qed.

Lemma crawl_inv_init start : crawl_inv base ex start (initial_state start).
Proof.
  split; cbn.
  - exists []. split_and!; [done..|]. intros u w Hu. by apply elem_of_nil in Hu.
  - apply NoDup_singleton.
  - by rewrite union_empty_r_L.
  - intros v ->%list_elem_of_singleton. exists 0. apply depth_start.
  - intros i j u v ku kv Hij Hi Hj. apply lookup_lt_Some in Hj. cbn in Hj. lia.
  - intros h pending dh v k _ _ ->%list_elem_of_singleton Hk.
    pose proof (depth_unique _ _ _ _ Hk (depth_start start)). lia.
  - intros h pending dh v k [= <- <-] Hh Hw Hk.
    pose proof (depth_unique _ _ _ _ Hh (depth_start start)) as ->.
    assert (k = 0) as -> by lia. inversion Hw. by left.
Qed.

(** One turn of the loop that takes [h] from the queue and appends the
    new URLs [news], all of them linked from [h], keeps the invariant. *)
Lemma crawl_inv_advance start st st' h q news :
  crawl_inv base ex start st →
  queue st = h :: q →
  queue st' = q ++ news →
  sink st' = sink st ++ news →
  visited st' = {[h]} ∪ visited st →
  discovered st' = list_to_set (sink st') →
  NoDup news →
  (∀ w, w ∈ news → (w ∉ sink st) ∧ edge base ex h w) →
  (∀ w, edge base ex h w → w ∈ sink st') →
  crawl_inv base ex start st'.
Proof.
  intros [(handled & Hsink & Hvis & Hedges) Hnodup Hdisc Hdepth Hsorted Hwidth Hlayers]
         Hq Hq' Hsink' Hvis' Hdisc' Hnews_nodup Hnews Hall.
  rewrite Hq in Hsink.
  assert (h ∈ sink st) as Hh_in.
  { rewrite Hsink. apply elem_of_app. right. by left. }
  destruct (Hdepth h Hh_in) as [dh Hdh].
  assert (∀ w, w ∈ news → depth base ex start (S dh) w) as Hnew_depth.
  { intros w Hw. destruct (Hnews w Hw) as [Hfresh Hedge]. split.
    - eapply walk_S; [apply Hdh|done].
    - intros j Hj. destruct (decide (j ≤ dh)) as [Hle|]; [|lia].
      exfalso. apply Hfresh. eapply Hlayers; eauto. }
  assert (∀ v k, v ∈ sink st' → depth base ex start k v → k ≤ S dh) as Hwidth0.
  { intros v k Hv Hk. rewrite Hsink' in Hv. apply elem_of_app in Hv as [Hv|Hv].
    - eapply Hwidth; eauto.
    - by rewrite (depth_unique _ _ _ _ Hk (Hnew_depth v Hv)). }
  assert (∀ h' pending' dh', queue st' = h' :: pending' →
            depth base ex start dh' h' → dh ≤ dh') as Hmono.
  { intros h' pending' dh' Hq'' Hdh'. rewrite Hq' in Hq''.
    destruct q as [|h'' q].
    - cbn in Hq''. assert (h' ∈ news) as Hin by (rewrite Hq''; by left).
      rewrite (depth_unique _ _ _ _ Hdh' (Hnew_depth h' Hin)). lia.
    - injection Hq'' as -> _.
      eapply (Hsorted (length handled) (S (length handled))); [lia| | |done..].
      + rewrite Hsink. by rewrite list_lookup_middle.
      + rewrite Hsink. rewrite (lookup_app_r handled) by lia.
        by replace (S (length handled) - length handled) with 1 by lia. }
  split.
  - exists (handled ++ [h]). split_and!.
    + by rewrite Hsink', Hq', Hsink, <-!app_assoc.
    + rewrite Hvis', Hvis, list_to_set_app_L. cbn [list_to_set].
      by rewrite union_empty_r_L, (comm_L (∪)).
    + intros u w [Hu| ->%list_elem_of_singleton]%elem_of_app Hedge; [|by apply Hall].
      rewrite Hsink'. apply elem_of_app. left. eauto.
  - rewrite Hsink'. apply NoDup_app. split_and!; [done| |done].
    intros x Hx Hx'. by destruct (Hnews x Hx').
  - done.
  - intros v Hv. rewrite Hsink' in Hv. apply elem_of_app in Hv as [Hv|Hv]; eauto.
  - intros i j u v ku kv Hij Hi Hj Hku Hkv. rewrite Hsink' in Hi, Hj.
    destruct (decide (j < length (sink st))) as [Hlt|Hge].
    + rewrite lookup_app_l in Hi, Hj by lia.
      exact (Hsorted i j u v ku kv Hij Hi Hj Hku Hkv).
    + rewrite (lookup_app_r _ _ j) in Hj by lia.
      apply list_elem_of_lookup_2 in Hj.
      rewrite (depth_unique _ _ _ _ Hkv (Hnew_depth v Hj)).
      apply (Hwidth0 u); [|done]. rewrite Hsink'.
      eapply list_elem_of_lookup_2, Hi.
  - intros h' pending' dh' v k Hq'' Hdh' Hv Hk.
    specialize (Hmono _ _ _ Hq'' Hdh'). specialize (Hwidth0 _ _ Hv Hk). lia.
  - intros h' pending' dh' v k Hq'' Hdh' Hw Hk.
    pose proof (Hmono _ _ _ Hq'' Hdh') as Hle.
    assert (h' ∈ sink st') as Hh'.
    { rewrite Hsink', Hsink, <-app_assoc. cbn. rewrite <-Hq', Hq''.
      apply elem_of_app. right. right. by left. }
    pose proof (Hwidth0 _ _ Hh' Hdh') as Hle'.
    destruct (decide (k ≤ dh)) as [Hk'|Hk'].
    { rewrite Hsink'. apply elem_of_app. left. eapply Hlayers; eauto. }
    assert (k = S dh) as -> by lia. assert (dh' = S dh) as -> by lia.
    inversion Hw as [|k0 p v0 Hp Hedge]; subst.
    assert (p ∈ sink st) as Hp_in by (eapply Hlayers; eauto).
    destruct (Hdepth p Hp_in) as [dp Hdp].
    assert (dp ≤ dh) as Hdp_le by (by apply Hdp).
    rewrite Hsink in Hp_in.
    apply elem_of_app in Hp_in as [Hp_in|[->|Hp_in]%elem_of_cons].
    + rewrite Hsink'. apply elem_of_app. left. eauto.
    + by apply Hall.
    + exfalso. rewrite Hq' in Hq''.
      destruct q as [|h'' q]; [by apply elem_of_nil in Hp_in|].
      injection Hq'' as -> _.
      apply elem_of_cons in Hp_in as [->|Hp_in].
      * pose proof (depth_unique _ _ _ _ Hdp Hdh'). lia.
      * apply list_elem_of_lookup_1 in Hp_in as [n Hn].
        assert (S dh ≤ dp); [|lia].
        eapply (Hsorted (S (length handled)) (S (S (length handled + n))));
          [lia| | |done..].
        -- rewrite Hsink. rewrite (lookup_app_r handled) by lia.
           by replace (S (length handled) - length handled) with 1 by lia.
        -- rewrite Hsink. rewrite (lookup_app_r handled) by lia.
           by replace (S (S (length handled + n)) - length handled)
             with (S (S n)) by lia.
Qed.

(** What the new URLs of an unfinished [for] loop keep true. *)
Lemma crawl_inv_partial start st h q news :
  crawl_inv base ex start st →
  queue st = h :: q →
  NoDup news →
  (∀ w, w ∈ news → (w ∉ sink st) ∧ edge base ex h w) →
  NoDup (sink st ++ news)
  ∧ by_depth base ex start (sink st ++ news)
  ∧ ∀ v, v ∈ sink st ++ news → ∃ k, depth base ex start k v.
Proof.
  intros [(handled & Hsink & Hvis & Hedges) Hnodup Hdisc Hdepth Hsorted Hwidth Hlayers]
         Hq Hnews_nodup Hnews.
  rewrite Hq in Hsink.
  assert (h ∈ sink st) as Hh_in.
  { rewrite Hsink. apply elem_of_app. right. by left. }
  destruct (Hdepth h Hh_in) as [dh Hdh].
  assert (∀ w, w ∈ news → depth base ex start (S dh) w) as Hnew_depth.
  { intros w Hw. destruct (Hnews w Hw) as [Hfresh Hedge]. split.
    - eapply walk_S; [apply Hdh|done].
    - intros j Hj. destruct (decide (j ≤ dh)) as [Hle|]; [|lia].
      exfalso. apply Hfresh. eapply Hlayers; eauto. }
  split_and!.
  - apply NoDup_app. split_and!; [done| |done].
    intros x Hx Hx'. by destruct (Hnews x Hx').
  - intros i j u v ku kv Hij Hi Hj Hku Hkv.
    destruct (decide (j < length (sink st))) as [Hlt|Hge].
    + rewrite lookup_app_l in Hi, Hj by lia.
      exact (Hsorted i j u v ku kv Hij Hi Hj Hku Hkv).
    + rewrite (lookup_app_r _ _ j) in Hj by lia.
      apply list_elem_of_lookup_2 in Hj.
      rewrite (depth_unique _ _ _ _ Hkv (Hnew_depth v Hj)).
      apply list_elem_of_lookup_2, elem_of_app in Hi as [Hu|Hu].
      * eapply Hwidth; eauto.
      * by rewrite (depth_unique _ _ _ _ Hku (Hnew_depth u Hu)).
  - intros v [Hv|Hv]%elem_of_app; eauto.
Qed.

Lemma crawl_inv_head_fresh start st h q :
  crawl_inv base ex start st → queue st = h :: q → (h ∉ visited st) ∧ (h ∉ q).
Proof.
  intros [(handled & Hsink & Hvis & _) Hnodup _ _ _ _ _] Hq.
  rewrite Hq in Hsink. rewrite Hsink in Hnodup.
  apply NoDup_app in Hnodup as (_ & Hdisj & Hnd). split.
  - rewrite Hvis, elem_of_list_to_set. intros Hin.
    apply (Hdisj h Hin). by left.
  - by apply NoDup_cons in Hnd as [? _].
Qed.

Lemma crawl_inv_step start st st' :
  crawl_inv base ex start st →
  iteration base ex st = Continue st' →
  crawl_inv base ex start st'.
Proof.
  intros Hinv. unfold iteration.
  destruct (queue st) as [|h q] eqn:Hq; [done|].
  destruct (crawl_inv_head_fresh _ _ _ _ Hinv Hq) as [Hfresh _].
  rewrite bool_decide_eq_false_2 by done.
  destruct (nonempty (fetch_html h)) eqn:Hhtml; cbn [negb].
  - destruct (for_hrefs _ _ _ _ _) as [st1 [e|]] eqn:Hfor; [done|].
    intros [= <-].
    apply for_hrefs_spec in Hfor
      as (news & Hq1 & Hs1 & Hd1 & Hv1 & Ht1 & Hnd & Hnews & Hall);
      [|apply Hinv].
    cbn in Hq1, Hs1, Hv1, Ht1.
    apply (crawl_inv_advance start st _ h q news); cbn; try done.
    + intros w Hw. destruct (Hnews w Hw) as [Hn (href & Hin & Ht)].
      split; [done|]. split; [by apply nonempty_true|eauto].
    + intros w [_ (href & Hin & Ht)]. eapply Hall; eauto.
  - intros [= <-]. apply nonempty_false in Hhtml.
    apply (crawl_inv_advance start st _ h q []); cbn; rewrite ?app_nil_r;
      try done.
    + apply Hinv.
    + constructor.
    + intros w Hw. by apply elem_of_nil in Hw.
    + by intros w [Hne _].
Qed.

Lemma crawl_inv_reachable start st :
  reachable base ex start st → crawl_inv base ex start st.
Proof.
  induction 1 as [|st st' _ IH Hstep]; [apply crawl_inv_init|].
  by eapply crawl_inv_step.
Qed.

Lemma reachable_run_iterations start n st :
  reachable base ex start st →
  reachable base ex start (run_iterations base ex n st).
Proof.
  revert st. induction n as [|n IH]; intros st Hst; [done|]. cbn.
  destruct (iteration base ex st) as [|st'|e st'] eqn:Hit; [done| |done].
  apply IH. by eapply reach_step.
Qed.

(** The states of an unfinished [for] loop, from the state in which the
    [while] test was last evaluated. *)
Lemma observable_inv start st0 :
  observable base ex start st0 →
  NoDup (sink st0)
  ∧ discovered st0 = list_to_set (sink st0)
  ∧ queue st0 `suffix_of` sink st0
  ∧ by_depth base ex start (sink st0)
  ∧ ∀ v, v ∈ sink st0 → ∃ k, depth base ex start k v.
Proof.
  intros [st Hst|st current pending handled rest st' Hst Hq Hfresh Hhtml Hhrefs Hfor].
  - apply crawl_inv_reachable in Hst
      as [(handled & Hsink & _) Hnodup Hdisc Hdepth Hsorted _ _].
    split_and!; try done. by exists handled.
  - pose proof (crawl_inv_reachable _ _ Hst) as Hinv.
    apply for_hrefs_spec in Hfor
      as (news & Hq1 & Hs1 & Hd1 & _ & _ & Hnd & Hnews & _); [|apply Hinv].
    cbn in Hq1, Hs1.
    destruct (crawl_inv_partial start st current pending news Hinv Hq Hnd)
      as (Hnodup & Hsorted & Hdepth).
    { intros w Hw. destruct (Hnews w Hw) as [Hn (href & Hin & Ht)].
      split; [done|]. split; [done|]. exists href. split; [|done].
      rewrite Hhrefs. apply elem_of_app. by left. }
    rewrite Hs1. split_and!; try done.
    + by rewrite <-Hs1.
    + destruct Hinv as [(handled' & Hsink & _) _ _ _ _ _ _].
      exists (handled' ++ [current]).
      by rewrite Hq1, Hsink, Hq, <-!app_assoc.
Qed.

End crawl_properties.

Section crawl_claims.
Context `{UrlLib} `{Web}.
Variables (base : string) (ex : list string).

(** The [for] loop only appends to the queue and to the sink. *)
Lemma for_hrefs_appends current hrefs st st' oe :
  for_hrefs base ex current hrefs st = (st', oe) →
  ∃ news,
    queue st' = queue st ++ news ∧ sink st' = sink st ++ news
    ∧ visited st' = visited st ∧ trace st' = trace st
    ∧ discovered st ⊆ discovered st'.
Proof.
  revert st. induction hrefs as [|href hrefs IH]; intros st; cbn [for_hrefs].
  - intros [= <- <-]. exists []. by rewrite !app_nil_r.
  - destruct (visit_href base ex current href st) as [st1|e] eqn:Hv.
    2:{ intros [= <- <-]. exists []. by rewrite !app_nil_r. }
    intros (news & Hq & Hs & Hv' & Ht & Hd)%IH.
    apply visit_href_step in Hv as [->|(a & _ & _ & ->)]; [by exists news|].
    cbn in *. exists (a :: news). rewrite <-!app_assoc in Hq, Hs.
    split_and!; try done. etrans; [|exact Hd]. apply union_subseteq_r.
Qed.

Lemma for_hrefs_total current hrefs st :
  (∀ href e, href ∈ hrefs → link_target base ex current href ≠ Raise e) →
  ∃ st', for_hrefs base ex current hrefs st = (st', None).
Proof.
  revert st. induction hrefs as [|href hrefs IH]; intros st Hok; cbn [for_hrefs].
  - by exists st.
  - rewrite visit_href_link_target.
    assert (∀ href' e, href' ∈ hrefs →
              link_target base ex current href' ≠ Raise e) as Hok'.
    { intros href' e Hin. apply Hok. by right. }
    destruct (link_target base ex current href) as [[a|]|e] eqn:Ht.
    + case_bool_decide; by apply IH.
    + by apply IH.
    + exfalso. by eapply (Hok href e); [left|].
Qed.

(** What one turn of the loop does to the queue, to [discovered] and to
    the trace. *)
Lemma iteration_cases st :
  match iteration base ex st with
  | Exit => queue st = []
  | Continue st' =>
      ∃ current pending news,
        queue st = current :: pending ∧ queue st' = pending ++ news
        ∧ sink st' = sink st ++ news
        ∧ discovered st ⊆ discovered st'
        ∧ ((current ∈ visited st) ∧ st' = mkState pending (visited st)
             (discovered st) (sink st) (trace st)
           ∨ (current ∉ visited st) ∧ fetch_html current = ""
             ∧ st' = after_fetch current pending st
           ∨ (current ∉ visited st) ∧ fetch_html current ≠ ""
             ∧ visited st' = {[current]} ∪ visited st
             ∧ trace st' = trace st ++ [Fetch current; Sleep])
  | Abort e st' =>
      ∃ current pending news,
        queue st = current :: pending ∧ queue st' = pending ++ news
        ∧ sink st' = sink st ++ news
        ∧ discovered st ⊆ discovered st'
        ∧ (current ∉ visited st) ∧ fetch_html current ≠ ""
        ∧ trace st' = trace st ++ [Fetch current]
  end.
Proof.
  unfold iteration. destruct (queue st) as [|current pending] eqn:Hq; [done|].
  case_bool_decide as Hvis.
  { exists current, pending, []. rewrite !app_nil_r. split_and!; try done.
    left. done. }
  destruct (nonempty (fetch_html current)) eqn:Hhtml; cbn [negb].
  - apply nonempty_true in Hhtml.
    destruct (for_hrefs _ _ _ _ _) as [st1 [e|]] eqn:Hfor;
      apply for_hrefs_appends in Hfor as (news & Hq1 & Hs1 & Hv1 & Ht1 & Hd1);
      cbn in Hq1, Hs1, Hv1, Ht1, Hd1; exists current, pending, news; cbn.
    + split_and!; done.
    + split_and!; try done. right. right. split_and!; try done.
      by rewrite Ht1, <-app_assoc.
  - apply nonempty_false in Hhtml. exists current, pending, [].
    rewrite !app_nil_r. split_and!; try done. right. left. done.
Qed.

(** C1: in every state of the crawl, between two turns of the loop or
    inside the [for] loop, the queue and the sink hold no URL twice, the
    queue is the end of the sink, and the sink holds exactly the members of
    [discovered]; an href adds a URL to the queue and to the sink only
    when it is not in [discovered], and then adds it to [discovered];
    [discovered] only grows. *)
Theorem crawl_never_enqueues_twice start st :
  observable base ex start st →
  NoDup (queue st) ∧ NoDup (sink st)
  ∧ queue st `suffix_of` sink st
  ∧ (∀ u, u ∈ sink st ↔ u ∈ discovered st)
  ∧ (∀ current href st',
       visit_href base ex current href st = Ok st' →
       st' = st
       ∨ ∃ a, (a ∉ discovered st)
              ∧ queue st' = queue st ++ [a] ∧ sink st' = sink st ++ [a]
              ∧ discovered st' = {[a]} ∪ discovered st)
  ∧ (∀ st', iteration base ex st = Continue st'
            ∨ (∃ e, iteration base ex st = Abort e st') →
            discovered st ⊆ discovered st').
Proof.
  intros (Hnodup & Hdisc & [handled Hsuffix] & _)%observable_inv.
  split_and!.
  - rewrite Hsuffix in Hnodup. by apply NoDup_app in Hnodup as (_ & _ & ?).
  - done.
  - by exists handled.
  - intros u. by rewrite Hdisc, elem_of_list_to_set.
  - intros current href st' [->|(a & _ & Hnew & ->)]%visit_href_step; [by left|].
    right. by exists a.
  - intros st' Hit. pose proof (iteration_cases st) as Hcases.
    destruct Hit as [Hit|[e Hit]]; rewrite Hit in Hcases;
      by destruct Hcases as (? & ? & ? & ? & ? & ? & ? & _).
Qed.


(** C6 (amended): after a fetch that returned a page, a turn of the loop
    that handles every href ends with the delay; after a fetch that
    failed, and when an exception ends the [for] loop, no delay follows
    the fetch. *)
Theorem delay_only_after_successful_fetch st current pending :
  queue st = current :: pending →
  current ∉ visited st →
  (fetch_html current = "" →
   ∃ st', iteration base ex st = Continue st'
          ∧ trace st' = trace st ++ [Fetch current])
  ∧ (fetch_html current ≠ "" →
     (∀ st', iteration base ex st = Continue st' →
             trace st' = trace st ++ [Fetch current; Sleep])
     ∧ ((∀ href e, href ∈ anchor_hrefs (fetch_html current) →
                   link_target base ex current href ≠ Raise e) →
        ∃ st', iteration base ex st = Continue st'))
  ∧ (∀ e st', iteration base ex st = Abort e st' →
              trace st' = trace st ++ [Fetch current]).
Proof.
  intros Hq Hfresh. split_and!.
  - intros Hhtml. exists (after_fetch current pending st). split; [|done].
    unfold iteration. rewrite Hq, bool_decide_eq_false_2 by done.
    by rewrite Hhtml.
  - intros Hhtml. split.
    + intros st' Hit. pose proof (iteration_cases st) as Hcases.
      rewrite Hit in Hcases.
      destruct Hcases as (c & p & news & Hq' & _ & _ & _ & Hcase).
      rewrite Hq in Hq'. injection Hq' as <- <-.
      destruct Hcase as [[? _]|[(_ & ? & _)|(_ & _ & _ & ?)]]; done.
    + intros Hok.
      destruct (for_hrefs_total current (anchor_hrefs (fetch_html current))
                  (after_fetch current pending st) Hok) as [st1 Hfor].
      eexists. unfold iteration. rewrite Hq, bool_decide_eq_false_2 by done.
      apply nonempty_true in Hhtml. rewrite Hhtml. cbn [negb].
      unfold after_fetch in Hfor. by rewrite Hfor.
  - intros e st' Hit. pose proof (iteration_cases st) as Hcases.
    rewrite Hit in Hcases.
    destruct Hcases as (c & p & news & Hq' & _ & _ & _ & _ & _ & Ht).
    rewrite Hq in Hq'. by injection Hq' as <- <-.
Qed.


End crawl_claims.

(** ** The entry point *)

Section main_properties.
Context `{UrlLib} `{Web}.

(** A start URL that the scope filter rejects ends [crawl] before the
    loop: nothing is fetched and nothing is written. *)
Lemma crawl_scope_violation fuel start_url base_prefix ex nb joined ns :
  normalize_url base_prefix = Ok nb →
  urljoin (nb +:+ "/") start_url = Ok joined →
  normalize_url joined = Ok ns →
  is_allowed ns nb ex = Ok false →
  crawl fuel start_url base_prefix ex
  = Some (Raised (scope_violation ns nb) empty_state).
Proof.
  intros Hnb Hj Hns Hallowed. unfold crawl, seed.
  rewrite Hnb. cbn [mbind result_bind]. rewrite Hj. cbn [mbind result_bind].
  rewrite Hns. cbn [mbind result_bind]. by rewrite Hallowed.
Qed.

Lemma main_scope_violation fuel start_url base_prefix ex nb joined ns :
  normalize_url (rstrip base_prefix "/") = Ok nb →
  urljoin (nb +:+ "/") start_url = Ok joined →
  normalize_url joined = Ok ns →
  is_allowed ns nb ex = Ok false →
  main fuel start_url base_prefix ex = Some (1, []).
Proof.
  intros Hnb Hj Hns Hallowed. unfold main.
  by erewrite crawl_scope_violation.
Qed.

Lemma main_returned fuel start_url base_prefix ex st :
  crawl fuel start_url (rstrip base_prefix "/") ex = Some (Returned st) →
  main fuel start_url base_prefix ex = Some (0, sink st).
Proof. unfold main. by intros ->. Qed.

Lemma crawl_seed_out_of_prefix fuel :
  crawl fuel "https://other.com" "https://x.com/docs" []
  = Some (Raised (scope_violation "https://other.com" "https://x.com/docs")
                 empty_state).
Proof. reflexivity. Qed.

Lemma for_hrefs_raise base ex current handled href rest st st1 e :
  for_hrefs base ex current handled st = (st1, None) →
  link_target base ex current href = Raise e →
  for_hrefs base ex current (handled ++ href :: rest) st = (st1, Some e).
Proof.
  revert st. induction handled as [|h handled IH]; intros st; cbn [for_hrefs app].
  - intros [= <-] Ht. by rewrite visit_href_link_target, Ht.
  - destruct (visit_href base ex current h st) as [st'|e']; [|done]. apply IH.
Qed.

(** C3: the start URL is in scope, its page is fetched, and one of its
    hrefs is refused by [urlsplit] after the hrefs before it were handled:
    the [ValueError] of the parser leaves [crawl] with the start URL
    already written to the sink, and the handler of [main], which is there
    for the scope violation, returns 1 instead of 0. *)
Theorem main_exit_status_malformed_href
    start_url base_prefix ex nb ns handled href rest e fuel :
  seed start_url (rstrip base_prefix "/") ex = Ok (nb, initial_state ns) →
  fetch_html ns ≠ "" →
  anchor_hrefs (fetch_html ns) = handled ++ href :: rest →
  (∀ h e', h ∈ handled → link_target nb ex ns h ≠ Raise e') →
  link_target nb ex ns href = Raise e →
  ∃ st,
    crawl (S fuel) start_url (rstrip base_prefix "/") ex = Some (Raised e st)
    ∧ ns ∈ sink st
    ∧ main (S fuel) start_url base_prefix ex = Some (1, sink st).
Proof.
  intros Hseed Hhtml Hhrefs Hok Hraise.
  destruct (for_hrefs_total nb ex ns handled (after_fetch ns [] (initial_state ns)) Hok)
    as [st1 Hfor].
  pose proof (for_hrefs_raise _ _ _ _ _ rest _ _ _ Hfor Hraise) as Hfor'.
  apply for_hrefs_appends in Hfor as (news & _ & Hsink & _).
  assert (crawl (S fuel) start_url (rstrip base_prefix "/") ex
          = Some (Raised e st1)) as Hcrawl.
  { unfold crawl. rewrite Hseed. cbn [drain]. unfold iteration, initial_state.
    cbn [queue visited discovered sink trace].
    rewrite bool_decide_eq_false_2 by apply not_elem_of_empty.
    apply nonempty_true in Hhtml. rewrite Hhtml. cbn [negb].
    rewrite Hhrefs. unfold after_fetch, initial_state in Hfor'.
    cbn [queue visited discovered sink trace] in Hfor'. by rewrite Hfor'. }
  exists st1. split_and!; [done| |].
  - rewrite Hsink. cbn. by left.
  - unfold main. by rewrite Hcrawl.
Qed.

End main_properties.

Lemma main_exit_status_malformed_href_witness :
  seed (H := lenient_lib) docs (rstrip docs "/") []
  = Ok (docs, initial_state docs)
  ∧ @fetch_html malformed_href docs ≠ ""
  ∧ @anchor_hrefs malformed_href (@fetch_html malformed_href docs)
    = ["guide"] ++ "http://[" :: ["faq"]
  ∧ @link_target lenient_lib docs [] docs "http://["
    = Raise (ValueError "Invalid IPv6 URL")
  ∧ ∃ st,
      @crawl lenient_lib malformed_href 5 docs (rstrip docs "/") []
      = Some (Raised (ValueError "Invalid IPv6 URL") st)
      ∧ docs ∈ sink st
      ∧ @main lenient_lib malformed_href 5 docs docs [] = Some (1, sink st).
Proof.
  split; [reflexivity|]. split; [discriminate|]. split; [reflexivity|].
  split; [reflexivity|].
  apply (@main_exit_status_malformed_href lenient_lib malformed_href
           docs docs [] docs docs ["guide"] "http://[" ["faq"]
           (ValueError "Invalid IPv6 URL") 4);
    [reflexivity|discriminate|reflexivity| |reflexivity].
  intros h e' Hin. apply list_elem_of_singleton in Hin as ->.
  intros Heq. vm_compute in Heq. discriminate Heq.
Defined.

Lemma malformed_href_run `{UrlLib} :
  @main _ malformed_href 5 docs docs []
  = Some (1, [docs; "https://x.com/docs/guide"]).
Proof. reflexivity. Qed.

(** C6 (counterexample): the start page cannot be fetched; the run marks
    it visited and ends without any delay. *)
Lemma delay_skipped_after_failed_fetch :
  @crawl lenient_lib offline 2 docs docs []
  = Some (Returned (mkState [] ({[docs]} ∪ ∅) {[docs]} [docs] [Fetch docs])).
Proof. reflexivity. Qed.

(** ** The theorems on concrete sites *)

Section three_levels_site.
#[local] Existing Instance lenient_lib.
#[local] Existing Instance three_levels.

Lemma three_levels_sink :
  sink (run_iterations docs [] 5 (initial_state docs))
  = [docs; "https://x.com/docs/a"; "https://x.com/docs/b";
     "https://x.com/docs/a/c"; "https://x.com/docs/b/d"].
Proof. reflexivity. Qed.

Lemma crawl_never_enqueues_twice_witness :
  let st := run_iterations docs [] 2 (initial_state docs) in
  observable docs [] docs st
  ∧ NoDup (queue st) ∧ NoDup (sink st)
  ∧ queue st `suffix_of` sink st
  ∧ (∀ u, u ∈ sink st ↔ u ∈ discovered st)
  ∧ (∀ current href st',
       visit_href docs [] current href st = Ok st' →
       st' = st
       ∨ ∃ a, (a ∉ discovered st)
              ∧ queue st' = queue st ++ [a] ∧ sink st' = sink st ++ [a]
              ∧ discovered st' = {[a]} ∪ discovered st)
  ∧ (∀ st', iteration docs [] st = Continue st'
            ∨ (∃ e, iteration docs [] st = Abort e st') →
            discovered st ⊆ discovered st').
Proof.
  intros st.
  assert (observable docs [] docs st) as Hobs.
  { apply obs_head, reachable_run_iterations, reach_init. }
  split; [exact Hobs|].
  exact (crawl_never_enqueues_twice docs [] docs st Hobs).
Defined.

Lemma delay_only_after_successful_fetch_witness :
  let st := initial_state docs in
  queue st = [docs]
  ∧ (docs ∉ visited st)
  ∧ (fetch_html docs = "" →
     ∃ st', iteration docs [] st = Continue st'
            ∧ trace st' = trace st ++ [Fetch docs])
  ∧ (fetch_html docs ≠ "" →
     (∀ st', iteration docs [] st = Continue st' →
             trace st' = trace st ++ [Fetch docs; Sleep])
     ∧ ((∀ href e, href ∈ anchor_hrefs (fetch_html docs) →
                   link_target docs [] docs href ≠ Raise e) →
        ∃ st', iteration docs [] st = Continue st'))
  ∧ (∀ e st', iteration docs [] st = Abort e st' →
              trace st' = trace st ++ [Fetch docs]).
Proof.
  intros st. split; [reflexivity|]. split; [apply not_elem_of_empty|].
  apply (delay_only_after_successful_fetch docs [] st docs []);
    [reflexivity|apply not_elem_of_empty].
Defined.

End three_levels_site.

Section three_levels_depths.
#[local] Existing Instance lenient_lib.
#[local] Existing Instance three_levels.



End three_levels_depths.

Section three_levels_layers.
#[local] Existing Instance lenient_lib.
#[local] Existing Instance three_levels.



End three_levels_layers.

Section failing_sibling_site.
#[local] Existing Instance lenient_lib.
#[local] Existing Instance failing_sibling.


Lemma failing_sibling_run :
  crawl 5 docs docs []
  = Some (Returned (run_iterations docs [] 4 (initial_state docs)))
  ∧ sink (run_iterations docs [] 4 (initial_state docs))
    = [docs; "https://x.com/docs/b"; "https://x.com/docs/c";
       "https://x.com/docs/c/d"]
  ∧ trace (run_iterations docs [] 4 (initial_state docs))
    = [Fetch docs; Sleep; Fetch "https://x.com/docs/b";
       Fetch "https://x.com/docs/c"; Sleep; Fetch "https://x.com/docs/c/d"].
Proof. split_and!; vm_compute; reflexivity. Qed.

End failing_sibling_site.

(** ** The order of paths *)

Section path_order.
Import Combine.

Lemma ascii_compare_lt a b : Ascii.compare a b = Lt ↔ (N_of_ascii a < N_of_ascii b)%N.
Proof. unfold Ascii.compare. apply N.compare_lt_iff. Qed.

Lemma ascii_compare_eq a b : Ascii.compare a b = Eq ↔ a = b.
Proof.
  split; [apply Ascii.compare_eq_iff|]. intros ->.
  unfold Ascii.compare. apply N.compare_refl.
Qed.

Lemma string_compare_refl s : String.compare s s = Eq.
Proof.
  induction s as [|a s IH]; [done|]. simpl.
  by rewrite (proj2 (ascii_compare_eq a a) eq_refl).
Qed.

Lemma string_compare_lt_trans s1 s2 s3 :
  String.compare s1 s2 = Lt → String.compare s2 s3 = Lt → String.compare s1 s3 = Lt.
Proof.
  revert s2 s3. induction s1 as [|a s1 IH]; intros [|b s2] [|c s3]; simpl; try done.
  destruct (Ascii.compare a b) eqn:Hab; [|clear IH|done];
    destruct (Ascii.compare b c) eqn:Hbc; try done.
  - apply ascii_compare_eq in Hab as ->. apply ascii_compare_eq in Hbc as ->.
    rewrite (proj2 (ascii_compare_eq c c) eq_refl). apply IH.
  - apply ascii_compare_eq in Hab as ->. by rewrite Hbc.
  - apply ascii_compare_eq in Hbc as ->. by rewrite Hab.
  - apply ascii_compare_lt in Hab, Hbc.
    assert (Ascii.compare a c = Lt) as ->; [|done].
    apply ascii_compare_lt. by eapply N.lt_trans.
Qed.

Lemma string_ltb_lt s1 s2 : String.ltb s1 s2 = true ↔ String.compare s1 s2 = Lt.
Proof. unfold String.ltb. by destruct (String.compare s1 s2). Qed.

Lemma string_trichotomy s1 s2 :
  String.ltb s1 s2 = true ∨ s1 = s2 ∨ String.ltb s2 s1 = true.
Proof.
  rewrite !string_ltb_lt. rewrite (String.compare_antisym s2 s1).
  destruct (String.compare s1 s2) eqn:Hc; simpl; auto.
  apply String.compare_eq_iff in Hc. auto.
Qed.

Lemma string_ltb_asym s1 s2 : String.ltb s1 s2 = true → String.ltb s2 s1 = false.
Proof.
  unfold String.ltb. rewrite (String.compare_antisym s2 s1).
  by destruct (String.compare s1 s2).
Qed.

Lemma string_ltb_irrefl s : String.ltb s s = false.
Proof. unfold String.ltb. by rewrite string_compare_refl. Qed.

Lemma path_ltb_irrefl p : path_ltb p p = false.
Proof.
  induction p as [|a p IH]; [done|]. simpl.
  by rewrite string_ltb_irrefl, String.eqb_refl.
Qed.

Lemma path_ltb_trans p q r :
  path_ltb p q = true → path_ltb q r = true → path_ltb p r = true.
Proof.
  revert q r. induction p as [|a p IH]; intros [|b q] [|c r]; simpl; try done.
  destruct (String.ltb a b) eqn:Hab.
  - intros _. destruct (String.ltb b c) eqn:Hbc.
    + intros _. apply string_ltb_lt in Hab, Hbc.
      pose proof (string_compare_lt_trans _ _ _ Hab Hbc) as Hac.
      apply string_ltb_lt in Hac. by rewrite Hac.
    + destruct (String.eqb_spec b c) as [->|]; [|done]. by rewrite Hab.
  - destruct (String.eqb_spec a b) as [->|]; [|done]. intros Hpq.
    destruct (String.ltb b c); [done|].
    destruct (String.eqb b c); [|done]. by apply IH.
Qed.

Lemma path_trichotomy p q : path_ltb p q = true ∨ p = q ∨ path_ltb q p = true.
Proof.
  revert q. induction p as [|a p IH]; intros [|b q]; simpl; auto.
  destruct (string_trichotomy a b) as [Hab|[->|Hba]].
  - rewrite Hab. auto.
  - rewrite string_ltb_irrefl, String.eqb_refl.
    destruct (IH q) as [?|[->|?]]; auto.
  - rewrite Hba. auto.
Qed.

Lemma path_ltb_asym p q : path_ltb p q = true → path_ltb q p = false.
Proof.
  intros Hpq. destruct (path_ltb q p) eqn:Hqp; [|done].
  pose proof (path_ltb_trans _ _ _ Hpq Hqp) as Hpp.
  by rewrite path_ltb_irrefl in Hpp.
Qed.

#[global] Instance path_le_total : Total path_le.
Proof.
  intros p q. unfold path_le.
  destruct (path_ltb q p) eqn:Hqp; [|by left]. right. by apply path_ltb_asym.
Qed.

#[global] Instance path_le_trans : Transitive path_le.
Proof.
  intros p q r. unfold path_le. intros Hqp Hrq.
  destruct (path_ltb r p) eqn:Hrp; [|done].
  destruct (path_trichotomy p q) as [Hpq|[->|Hqp']]; [|congruence..].
  pose proof (path_ltb_trans _ _ _ Hrp Hpq). congruence.
Qed.

End path_order.

(** ** The combine tool on any file system *)

Section combine_general.
Import Combine.
Context `{FileBuffer}.

Lemma gather_text_files_sorted fs cwd root :
  StronglySorted path_le (gather_text_files fs cwd root)
  ∧ gather_text_files fs cwd root ≡ₚ rglob_txt fs cwd root.
Proof.
  split; [apply StronglySorted_merge_sort; apply _|apply merge_sort_Permutation].
Qed.

(** When every gathered path other than the output path leads to a regular
    file that is not the output file, the loop writes the section of each
    of them, in the order of the list. *)
Lemma write_all_spec fs cwd root output out text_files written count :
  (∀ p, p ∈ text_files → p ≠ output →
        ∃ k content,
          resolve fs cwd p = Ok k ∧ k ≠ out ∧ fs !! k = Some (File content)) →
  write_all fs cwd root output out text_files written count
  = (written +:+ combined fs cwd root (List.filter (λ p, negb (bool_decide (p = output))) text_files),
     count + length (List.filter (λ p, negb (bool_decide (p = output))) text_files),
     None).
Proof.
  revert written count.
  induction text_files as [|p text_files IH]; intros written count Hfiles.
  - cbn. by rewrite str_app_nil_r, Nat.add_0_r.
  - cbn [write_all List.filter].
    assert (∀ p', p' ∈ text_files → p' ≠ output →
              ∃ k content,
                resolve fs cwd p' = Ok k ∧ k ≠ out
                ∧ fs !! k = Some (File content)) as Hrest.
    { intros p' Hin. apply Hfiles. by right. }
    case_bool_decide as Hp; cbn [negb].
    + by apply IH.
    + destruct (Hfiles p) as (k & content & Hk & Hne & Hcontent); [by left|done|].
      unfold read_text. rewrite Hk. cbn [mbind result_bind].
      rewrite bool_decide_eq_false_2 by done.
      rewrite Hcontent. rewrite IH by done.
      cbn [combined foldr length]. unfold file_text. rewrite Hk, Hcontent.
      fold (combined fs cwd root
              (List.filter (λ p0, negb (bool_decide (p0 = output))) text_files)).
      by rewrite !str_app_assoc, Nat.add_succ_comm.
Qed.

(** The combine tool: when the input directory exists, the directories of
    the output can be made and the output file opened, and every entry
    found below the input directory, the output path apart, is a regular
    file other than the output file, the tool exits with status 0 and the
    output holds the sections of these entries in the order of their
    paths. *)
Lemma combine_main_spec fs cwd input_dir output_file fs1 out fs2 :
  let root := Path input_dir in
  let output_path := Path output_file in
  path_exists fs cwd root = true →
  mkdir_parents fs cwd (parent output_path) (length (parent output_path))
  = (fs1, None) →
  open_w fs1 cwd output_path = Ok (out, fs2) →
  (∀ p, p ∈ rglob_txt fs2 cwd root → p ≠ output_path →
        ∃ k content,
          resolve fs2 cwd p = Ok k ∧ k ≠ out ∧ fs2 !! k = Some (File content)) →
  ∃ text_files,
    StronglySorted path_le text_files
    ∧ (∀ p, p ∈ text_files ↔ p ∈ rglob_txt fs2 cwd root ∧ p ≠ output_path)
    ∧ main fs cwd input_dir output_file
      = Exited 0 (length text_files)
               (<[out := File (combined fs2 cwd root text_files)]> fs2).
Proof.
  intros root output_path Hroot Hmkdir Hopen Hfiles.
  destruct (gather_text_files_sorted fs2 cwd root) as [Hsorted Hperm].
  exists (List.filter (λ p, negb (bool_decide (p = output_path)))
                      (gather_text_files fs2 cwd root)).
  split_and!.
  - clear -Hsorted. induction Hsorted as [|p l Hl IH Hall]; cbn; [constructor|].
    destruct (negb _); [|done]. constructor; [done|].
    apply Forall_forall. intros q Hq%list_elem_of_In%filter_In.
    destruct Hq as [Hq%list_elem_of_In _].
    by eapply Forall_forall in Hall.
  - intros p. rewrite list_elem_of_In, filter_In, <-list_elem_of_In, Hperm.
    rewrite negb_true_iff, bool_decide_eq_false. done.
  - unfold main. fold root output_path. rewrite Hroot. cbn [negb].
    rewrite Hmkdir, Hopen. rewrite write_all_spec.
    + by rewrite str_app_nil_l.
    + intros p Hp. apply Hfiles. by rewrite <-Hperm.
Qed.

End combine_general.

(** ** The combine tool on an example *)

Section combine_properties.
Import Combine.
Context `{FileBuffer}.

(** The example of the specification: the output lies outside the input
    directory. *)
Lemma combine_exports :
  main exports ["w"] "pages" "all.txt"
  = Exited 0 2
      (<[ ["w"; "all.txt"] :=
            File ("# Source: a.txt" +:+ nl +:+ "X" +:+ nl +:+ nl
                  +:+ "# Source: sub/b.txt" +:+ nl +:+ "Y" +:+ nl +:+ nl) ]>
         (<[ ["w"; "all.txt"] := File "" ]> exports)).
Proof. vm_compute. reflexivity. Qed.

(** The output inside the input directory, named through the input
    directory: it is skipped. *)
Lemma combine_skips_output :
  content_after (main exports ["w"] "pages" "pages/all.txt")
                ["w"; "pages"; "all.txt"]
  = Some ("# Source: a.txt" +:+ nl +:+ "X" +:+ nl +:+ nl
          +:+ "# Source: sub/b.txt" +:+ nl +:+ "Y" +:+ nl +:+ nl).
Proof. vm_compute. reflexivity. Qed.

(** C9: the output file lies inside the input directory and is named by
    its absolute path: [text_file == output_path] compares the paths as
    they are written, the output file is not skipped, and its own marker
    line is written between those of [a.txt] and [sub/b.txt]. *)
Theorem combine_includes_own_output :
  ∃ count fs content,
    main exports ["w"] "pages" "/w/pages/all.txt" = Exited 0 count fs
    ∧ count = 3
    ∧ fs !! ["w"; "pages"; "all.txt"] = Some (File content)
    ∧ startswith content
        ("# Source: a.txt" +:+ nl +:+ "X" +:+ nl +:+ nl
         +:+ "# Source: all.txt" +:+ nl) = true.
Proof.
  eexists _, _, _. split_and!; [vm_compute; reflexivity|reflexivity|..].
  - vm_compute. reflexivity.
  - vm_compute. reflexivity.
Qed.

End combine_properties.

(** * Further properties of the programs *)

(** ** The run of the crawl as a whole *)

Section crawl_runs.
Context `{UrlLib} `{Web}.
Variables (base : string) (ex : list string).

Lemma link_target_in_scope current href w :
  link_target base ex current href = Ok (Some w) →
  is_http w = true ∧ is_allowed w base ex = Ok true.
Proof.
  unfold link_target.
  destruct (urljoin _ href) as [joined|e]; cbn [mbind result_bind]; [|done].
  destruct (normalize_url joined) as [absolute|e]; cbn [mbind result_bind]; [|done].
  destruct (is_http absolute) eqn:Hhttp; cbn [negb]; [|done].
  destruct (is_allowed absolute base ex) as [[]|e] eqn:Hallowed;
    cbn [mbind result_bind]; [|done..].
  by intros [= <-].
Qed.

(** The URLs that the [for] loop appends are targets of hrefs of the page. *)
Lemma for_hrefs_news current hrefs st st' oe :
  for_hrefs base ex current hrefs st = (st', oe) →
  ∃ news,
    queue st' = queue st ++ news
    ∧ sink st' = sink st ++ news
    ∧ visited st' = visited st
    ∧ trace st' = trace st
    ∧ ∀ w, w ∈ news →
           ∃ href, href ∈ hrefs ∧ link_target base ex current href = Ok (Some w).
Proof.
  revert st. induction hrefs as [|href hrefs IH]; intros st; cbn [for_hrefs].
  - intros [= <- <-]. exists []. rewrite !app_nil_r. split_and!; [done..|].
    intros w Hw. by apply elem_of_nil in Hw.
  - destruct (visit_href base ex current href st) as [st1|e] eqn:Hv.
    2:{ intros [= <- <-]. exists []. rewrite !app_nil_r. split_and!; [done..|].
        intros w Hw. by apply elem_of_nil in Hw. }
    intros (news & Hq & Hs & Hvis & Htr & Hnews)%IH.
    apply visit_href_step in Hv as [->|(a & Ha & _ & ->)].
    + exists news. split_and!; [done..|]. intros w Hw.
      destruct (Hnews w Hw) as (href' & ? & ?). exists href'. split; [by right|done].
    + cbn in Hq, Hs, Hvis, Htr. exists (a :: news).
      rewrite <-app_assoc in Hq, Hs. split_and!; [done..|].
      intros w [->|Hw]%elem_of_cons.
      * exists href. split; [by left|done].
      * destruct (Hnews w Hw) as (href' & ? & ?). exists href'.
        split; [by right|done].
Qed.

(** What a turn of the loop that does not leave it does: it takes the head
    of the queue, which it fetches unless the URL is marked, and appends
    to the queue and to the sink URLs that the page links to. *)
Lemma iteration_news st st' :
  iteration base ex st = Continue st'
  ∨ (∃ e, iteration base ex st = Abort e st') →
  ∃ current pending news,
    queue st = current :: pending
    ∧ queue st' = pending ++ news
    ∧ sink st' = sink st ++ news
    ∧ (∀ w, w ∈ news → edge base ex current w)
    ∧ ((current ∈ visited st) ∧ visited st' = visited st
         ∧ fetches (trace st') = fetches (trace st)
       ∨ (current ∉ visited st) ∧ visited st' = {[current]} ∪ visited st
         ∧ fetches (trace st') = fetches (trace st) ++ [current]).
Proof.
  assert (∀ w : string, w ∈ @nil string → edge base ex "" w) as Hnil.
  { intros w Hw. by apply elem_of_nil in Hw. }
  unfold iteration. destruct (queue st) as [|current pending] eqn:Hq.
  { intros [?|[e ?]]; done. }
  intros Hit. exists current, pending.
  case_bool_decide as Hvis.
  { destruct Hit as [[= <-]|[e ?]]; [|done]. exists []. rewrite !app_nil_r.
    split_and!; [done..| |by left]. intros w Hw. by apply elem_of_nil in Hw. }
  destruct (nonempty (fetch_html current)) eqn:Hhtml; cbn [negb] in Hit.
  - destruct (for_hrefs _ _ _ _ _) as [st1 oe] eqn:Hfor.
    apply for_hrefs_news in Hfor as (news & Hqu & Hs & Hv & Htr & Hnews).
    cbn in Hqu, Hs, Hv, Htr.
    assert (fetches (trace st1) = fetches (trace st) ++ [current]) as Hfetches.
    { rewrite Htr. unfold fetches. by rewrite omap_app. }
    exists news.
    assert (∀ w, w ∈ news → edge base ex current w) as Hedges.
    { intros w Hw. destruct (Hnews w Hw) as (href & ? & ?).
      split; [by apply nonempty_true|]. eauto. }
    destruct oe as [e0|]; destruct Hit as [Hit|[e' Hit]]; try done.
    + injection Hit as _ <-. split_and!; [done..|]. right. done.
    + injection Hit as <-. cbn. split_and!; [done..|]. right.
      split_and!; [done..|]. unfold fetches in *. rewrite omap_app, Hfetches.
      cbn. by rewrite app_nil_r.
  - destruct Hit as [[= <-]|[e ?]]; [|done]. exists []. rewrite !app_nil_r. cbn.
    split_and!; [done..| |].
    + intros w Hw. by apply elem_of_nil in Hw.
    + right. split_and!; [done..|]. unfold fetches. by rewrite omap_app.
Qed.

Lemma start_in_sink start st : reachable base ex start st → start ∈ sink st.
Proof.
  induction 1 as [|st st' _ IH Hstep]; [by left|].
  destruct (iteration_news st st' (or_introl Hstep))
    as (? & ? & news & _ & _ & -> & _).
  apply elem_of_app. by left.
Qed.

Lemma drain_returned fuel start st st' :
  reachable base ex start st →
  drain base ex fuel st = Some (Returned st') →
  reachable base ex start st' ∧ queue st' = [].
Proof.
  revert st. induction fuel as [|fuel IH]; intros st Hst; [done|]. cbn [drain].
  pose proof (iteration_cases base ex st) as Hcases.
  destruct (iteration base ex st) as [|st1|e st1] eqn:Hit; [| |done].
  - by intros [= <-].
  - apply IH. by eapply reach_step.
Qed.

Lemma drain_raised fuel start st e st' :
  reachable base ex start st →
  drain base ex fuel st = Some (Raised e st') →
  observable base ex start st'.
Proof.
  revert st. induction fuel as [|fuel IH]; intros st Hst; [done|]. cbn [drain].
  destruct (iteration base ex st) as [|st1|e1 st1] eqn:Hit; [done| |].
  - apply IH. by eapply reach_step.
  - intros [= <- <-]. revert Hit. unfold iteration.
    destruct (queue st) as [|current pending] eqn:Hq; [done|].
    case_bool_decide as Hvis; [done|].
    destruct (nonempty (fetch_html current)) eqn:Hhtml; cbn [negb]; [|done].
    destruct (for_hrefs _ _ _ _ _) as [st2 [e2|]] eqn:Hfor; [|done].
    intros [= <- <-].
    assert (∃ handled href rest,
              anchor_hrefs (fetch_html current) = handled ++ href :: rest
              ∧ for_hrefs base ex current handled (after_fetch current pending st)
                = (st2, None)) as (handled & href & rest & Hhrefs & Hfor').
    { unfold after_fetch. revert Hfor. generalize (anchor_hrefs (fetch_html current)).
      generalize (mkState pending ({[current]} ∪ visited st) (discovered st)
                          (sink st) (trace st ++ [Fetch current])).
      intros s0 l. revert s0. induction l as [|h l IHl]; intros s0; cbn [for_hrefs];
        [done|].
      destruct (visit_href base ex current h s0) as [s1|e3] eqn:Hv.
      - intros (handled & href & rest & -> & Hf)%IHl.
        exists (h :: handled), href, rest. split; [done|]. cbn [for_hrefs].
        by rewrite Hv.
      - intros [= <- <-]. by exists [], h, l. }
    eapply obs_for; eauto. by apply nonempty_true.
Qed.

End crawl_runs.

Section crawl_outcomes.
Context `{UrlLib} `{Web}.
Variables (base : string) (ex : list string).

(** How the loop ends: at a test of [while queue] that finds the queue
    empty, or in a turn that raises. *)
Lemma drain_outcome fuel start st o :
  reachable base ex start st →
  drain base ex fuel st = Some o →
  match o with
  | Returned st' => reachable base ex start st' ∧ queue st' = []
  | Raised e st' =>
      ∃ st1, reachable base ex start st1 ∧ iteration base ex st1 = Abort e st'
  end.
Proof.
  revert st. induction fuel as [|fuel IH]; intros st Hst; [done|]. cbn [drain].
  pose proof (iteration_cases base ex st) as Hcases.
  destruct (iteration base ex st) as [|st1|e st1] eqn:Hit.
  - by intros [= <-].
  - apply IH. by eapply reach_step.
  - intros [= <-]. eauto.
Qed.

Lemma queue_in_sink start st u :
  reachable base ex start st → u ∈ queue st → u ∈ sink st.
Proof.
  intros [(handled & -> & _) _ _ _ _ _ _]%crawl_inv_reachable Hu.
  apply elem_of_app. by right.
Qed.

(** A property of the start URL that the edges of the link graph preserve
    holds for every URL of the sink. *)
Lemma sink_closed (P : string → Prop) start st :
  P start → (∀ u w, P u → edge base ex u w → P w) →
  reachable base ex start st → ∀ v, v ∈ sink st → P v.
Proof.
  intros Hstart Hedge. induction 1 as [|st st' Hst IH Hstep].
  - by intros v ->%list_elem_of_singleton.
  - destruct (iteration_news base ex st st' (or_introl Hstep))
      as (current & pending & news & Hq & _ & -> & Hnews & _).
    intros v [Hv|Hv]%elem_of_app; [by apply IH|].
    apply (Hedge current); [|by apply Hnews].
    apply IH, (queue_in_sink start); [done|]. rewrite Hq. by left.
Qed.

Lemma sink_closed_abort (P : string → Prop) start st e st' :
  P start → (∀ u w, P u → edge base ex u w → P w) →
  reachable base ex start st → iteration base ex st = Abort e st' →
  ∀ v, v ∈ sink st' → P v.
Proof.
  intros Hstart Hedge Hst Hstep.
  destruct (iteration_news base ex st st' (or_intror (ex_intro _ e Hstep)))
    as (current & pending & news & Hq & _ & -> & Hnews & _).
  intros v [Hv|Hv]%elem_of_app; [by eapply sink_closed|].
  apply (Hedge current); [|by apply Hnews].
  eapply sink_closed; [done..|]. apply (queue_in_sink start); [done|].
  rewrite Hq. by left.
Qed.

Lemma fetch_inv_step start st st' :
  reachable base ex start st → fetch_inv st →
  iteration base ex st = Continue st'
  ∨ (∃ e, iteration base ex st = Abort e st') →
  fetch_inv st'.
Proof.
  intros Hst [Hsink Hvis] Hstep.
  destruct (iteration_news base ex st st' Hstep)
    as (current & pending & news & Hq & Hq' & Hs' & _ & Hcase).
  apply crawl_inv_reachable in Hst.
  destruct (crawl_inv_head_fresh base ex start st current pending Hst Hq)
    as [Hfresh _].
  destruct Hcase as [[? _]|(_ & Hv' & Hf')]; [done|].
  split.
  - rewrite Hs', Hsink, Hq, Hq', Hf', <-!app_assoc. done.
  - rewrite Hv', Hf', Hvis, list_to_set_app_L. cbn.
    rewrite (right_id_L ∅ (∪)). apply (comm_L (∪)).
Qed.

Lemma fetch_inv_reachable start st :
  reachable base ex start st → fetch_inv st.
Proof.
  induction 1 as [|st st' Hst IH Hstep]; [done|].
  eapply fetch_inv_step; eauto.
Qed.

(** The loop ends within as many turns as a set of URLs that the link graph
    does not leave has members outside the sink, plus the length of the
    queue. *)
Lemma iteration_measure (U : gset string) start st st' :
  (∀ u w, u ∈ U → edge base ex u w → w ∈ U) → start ∈ U →
  reachable base ex start st →
  iteration base ex st = Continue st' →
  length (sink st') ≤ size U
  ∧ S (length (queue st') + (size U - length (sink st')))
    = length (queue st) + (size U - length (sink st)).
Proof.
  intros Hclosed Hstart Hst Hstep.
  assert (reachable base ex start st') as Hst' by (by eapply reach_step).
  assert (length (sink st') ≤ size U) as Hle.
  { pose proof (inv_nodup _ _ _ _ (crawl_inv_reachable _ _ _ _ Hst')) as Hnodup.
    rewrite <-(size_list_to_set (C := gset string)) by done.
    apply subseteq_size. intros v Hv%elem_of_list_to_set.
    by apply (sink_closed (λ v, v ∈ U) start st'). }
  split; [done|].
  destruct (iteration_news base ex st st' (or_introl Hstep))
    as (current & pending & news & Hq & Hq' & Hs' & _).
  rewrite Hs', length_app in Hle. rewrite Hq, Hq', Hs', !length_app. cbn. lia.
Qed.

Lemma drain_terminates (U : gset string) start fuel st :
  (∀ u w, u ∈ U → edge base ex u w → w ∈ U) → start ∈ U →
  reachable base ex start st →
  length (queue st) + (size U - length (sink st)) < fuel →
  ∃ o, drain base ex fuel st = Some o.
Proof.
  intros Hclosed Hstart. revert st.
  induction fuel as [|fuel IH]; intros st Hst Hfuel; [lia|]. cbn [drain].
  destruct (iteration base ex st) as [|st1|e st1] eqn:Hit; [eauto| |eauto].
  destruct (iteration_measure U start st st1) as [_ Hm]; [done..|].
  apply IH; [by eapply reach_step|lia].
Qed.

End crawl_outcomes.

Section crawl_results.
Context `{UrlLib} `{Web}.
Implicit Types (excludes : list string) (st : crawl_state) (o : outcome).

Lemma seed_allowed start_url base_prefix excludes nb ns :
  seed start_url base_prefix excludes = Ok (nb, initial_state ns) →
  is_allowed ns nb excludes = Ok true
  ∧ ∀ fuel, crawl fuel start_url base_prefix excludes
            = drain nb excludes fuel (initial_state ns).
Proof.
  intros Hseed. split; [|by intros fuel; unfold crawl; rewrite Hseed].
  revert Hseed. unfold seed.
  destruct (normalize_url base_prefix) as [nb'|]; cbn [mbind result_bind]; [|done].
  destruct (urljoin _ start_url) as [joined|]; cbn [mbind result_bind]; [|done].
  destruct (normalize_url joined) as [ns'|]; cbn [mbind result_bind]; [|done].
  destruct (is_allowed ns' nb' excludes) as [[]|] eqn:Hallowed;
    cbn [mbind result_bind negb]; [|done..].
  unfold initial_state. by intros [= -> ->].
Qed.

(** X1: when [crawl] returns, the set it returns holds exactly the URLs that
    can be reached from the normalised start URL along links that the
    crawler follows, and it has as many members as the sink has lines. *)
Theorem crawl_returns_reachable_set fuel start_url base_prefix excludes nb ns st :
  seed start_url base_prefix excludes = Ok (nb, initial_state ns) →
  crawl fuel start_url base_prefix excludes = Some (Returned st) →
  (∀ v, v ∈ discovered st ↔ ∃ k, walk nb excludes ns k v)
  ∧ size (discovered st) = length (sink st).
Proof.
  intros [_ Hcrawl]%seed_allowed. rewrite Hcrawl. intros Hdrain.
  apply (drain_outcome nb excludes fuel ns) in Hdrain as [Hst Hq];
    [|apply reach_init].
  destruct (crawl_inv_reachable _ _ _ _ Hst)
    as [(handled & Hsink & _ & Hedges) Hnodup Hdisc Hdepth _ _ _].
  rewrite Hq, app_nil_r in Hsink. subst handled.
  split.
  - intros v. rewrite Hdisc, elem_of_list_to_set. split.
    + intros (k & Hwalk & _)%Hdepth. eauto.
    + intros (k & Hwalk). induction Hwalk as [|k u w _ IH Hedge].
      * by eapply start_in_sink.
      * by eapply Hedges.
  - rewrite Hdisc. by apply size_list_to_set.
Qed.

(** X2: on a site whose links that the crawler follows stay within a finite
    set of URLs, [crawl] ends, by returning or by raising, within one more
    turn of its loop than the set has members. *)
Theorem crawl_ends_on_finite_site (U : gset string) fuel start_url base_prefix
  excludes nb ns :
  seed start_url base_prefix excludes = Ok (nb, initial_state ns) →
  ns ∈ U →
  (∀ u w, u ∈ U → edge nb excludes u w → w ∈ U) →
  size U < fuel →
  ∃ o, crawl fuel start_url base_prefix excludes = Some o.
Proof.
  intros [_ Hcrawl]%seed_allowed Hstart Hclosed Hfuel. rewrite Hcrawl.
  apply (drain_terminates nb excludes U ns); [done..|apply reach_init|].
  assert (size U ≠ 0) as Hsize.
  { intros Hempty%size_empty_iff. by apply Hempty in Hstart. }
  cbn. lia.
Qed.

(** X3: however [crawl] ends, every URL that it has written to the sink
    passes [is_allowed], and every one but the start URL begins with
    [http]. *)
Theorem crawl_sink_in_scope fuel start_url base_prefix excludes nb ns o :
  seed start_url base_prefix excludes = Ok (nb, initial_state ns) →
  crawl fuel start_url base_prefix excludes = Some o →
  ∀ u, u ∈ sink (outcome_state o) →
       is_allowed u nb excludes = Ok true ∧ (u = ns ∨ is_http u = true).
Proof.
  intros [Hallowed Hcrawl]%seed_allowed. rewrite Hcrawl. intros Hdrain.
  apply (drain_outcome nb excludes fuel ns) in Hdrain; [|apply reach_init].
  set (P := λ u, is_allowed u nb excludes = Ok true ∧ (u = ns ∨ is_http u = true)).
  assert (P ns) as Hstart by (split; auto).
  assert (∀ u w, P u → edge nb excludes u w → P w) as Hedge.
  { intros u w _ [_ (href & _ & [??]%link_target_in_scope)]. split; auto. }
  destruct o as [st|e st]; cbn [outcome_state].
  - destruct Hdrain as [Hst _]. by apply (sink_closed nb excludes P ns).
  - destruct Hdrain as (st1 & Hst1 & Hit).
    by apply (sink_closed_abort nb excludes P ns st1 e).
Qed.

(** X4: however [crawl] ends, the URLs it has fetched are the URLs of the
    sink that have left the queue, in the order of the sink and each of
    them once; they are the members of [visited], which [discovered]
    includes.  When [crawl] returns, they are all the URLs of the sink. *)
Theorem crawl_fetches_sink_in_order fuel start_url base_prefix excludes nb ns o :
  seed start_url base_prefix excludes = Ok (nb, initial_state ns) →
  crawl fuel start_url base_prefix excludes = Some o →
  sink (outcome_state o)
  = fetches (trace (outcome_state o)) ++ queue (outcome_state o)
  ∧ NoDup (fetches (trace (outcome_state o)))
  ∧ visited (outcome_state o) = list_to_set (fetches (trace (outcome_state o)))
  ∧ visited (outcome_state o) ⊆ discovered (outcome_state o)
  ∧ (∀ st', o = Returned st' → fetches (trace st') = sink st').
Proof.
  intros [_ Hcrawl]%seed_allowed. rewrite Hcrawl. intros Hdrain.
  set (st := outcome_state o).
  apply (drain_outcome nb excludes fuel ns) in Hdrain; [|apply reach_init].
  assert (fetch_inv st ∧ NoDup (sink st) ∧ discovered st = list_to_set (sink st)
          ∧ (∀ st', o = Returned st' → queue st' = []))
    as ([Hsink Hvis] & Hnodup & Hdisc & Hret).
  { subst st. destruct o as [st|e st]; cbn [outcome_state].
    - destruct Hdrain as [Hst Hq].
      destruct (crawl_inv_reachable _ _ _ _ Hst) as [_ ? ? _ _ _ _].
      split_and!; [by eapply fetch_inv_reachable|done..|by intros ? [= <-]].
    - destruct Hdrain as (st1 & Hst1 & Hit).
      assert (observable nb excludes ns st) as Hobs.
      { eapply drain_raised; [exact Hst1|]. instantiate (2 := 1). cbn [drain].
        rewrite Hit. reflexivity. }
      destruct (observable_inv _ _ _ _ Hobs) as (? & ? & _).
      split_and!; [|done..].
      eapply fetch_inv_step; [exact Hst1|by eapply fetch_inv_reachable|eauto]. }
  split; [done|]. split.
  { rewrite Hsink in Hnodup. by apply NoDup_app in Hnodup as [? _]. }
  split; [done|]. split.
  { rewrite Hvis, Hdisc, Hsink, list_to_set_app_L. apply union_subseteq_l. }
  intros st' ->. cbn [outcome_state] in *. subst st.
  by rewrite Hsink, (Hret st' eq_refl), app_nil_r.
Qed.

End crawl_results.

Section failing_sibling_crawl.
#[local] Existing Instance lenient_lib.
#[local] Existing Instance failing_sibling.

Lemma crawl_returns_reachable_set_witness :
  let st := run_iterations docs [] 4 (initial_state docs) in
  crawl 5 docs docs [] = Some (Returned st)
  ∧ (∀ v, v ∈ discovered st ↔ ∃ k, walk docs [] docs k v)
  ∧ size (discovered st) = length (sink st).
Proof.
  intros st.
  assert (crawl 5 docs docs [] = Some (Returned st)) as Hrun
    by (vm_compute; reflexivity).
  split; [exact Hrun|].
  apply (crawl_returns_reachable_set 5 docs docs [] docs docs st);
    [vm_compute; reflexivity|exact Hrun].
Defined.

Lemma crawl_ends_on_finite_site_witness : ∃ o, crawl 5 docs docs [] = Some o.
Proof.
  apply (crawl_ends_on_finite_site
           (list_to_set [docs; "https://x.com/docs/b"; "https://x.com/docs/c";
                         "https://x.com/docs/c/d"])
           5 docs docs [] docs docs).
  - vm_compute; reflexivity.
  - apply elem_of_list_to_set. left.
  - intros u w Hu%elem_of_list_to_set [Hhtml (href & Hin & Ht)].
    rewrite elem_of_list_to_set.
    repeat (apply elem_of_cons in Hu as [->|Hu]);
      [| | | |by apply elem_of_nil in Hu]; vm_compute in Hin, Hhtml; try done.
    + repeat (apply elem_of_cons in Hin as [->|Hin]);
        [| |by apply elem_of_nil in Hin];
        vm_compute in Ht; injection Ht as <-.
      * right; left.
      * right; right; left.
    + apply list_elem_of_singleton in Hin as ->.
      vm_compute in Ht; injection Ht as <-. do 3 right; left.
  - vm_compute. lia.
Defined.

Lemma crawl_fetches_sink_in_order_witness :
  let st := run_iterations docs [] 4 (initial_state docs) in
  sink st = fetches (trace st) ++ queue st
  ∧ NoDup (fetches (trace st))
  ∧ visited st = list_to_set (fetches (trace st))
  ∧ visited st ⊆ discovered st
  ∧ (∀ st', Returned st = Returned st' → fetches (trace st') = sink st').
Proof.
  intros st.
  apply (crawl_fetches_sink_in_order 5 docs docs [] docs docs (Returned st));
    vm_compute; reflexivity.
Defined.

End failing_sibling_crawl.

Section malformed_href_crawl.
#[local] Existing Instance lenient_lib.
#[local] Existing Instance malformed_href.

Lemma crawl_sink_in_scope_witness :
  let guide := "https://x.com/docs/guide" in
  let st := mkState [guide] ({[docs]} ∪ ∅) ({[guide]} ∪ {[docs]}) [docs; guide]
                    [Fetch docs] in
  crawl 3 docs docs ["guide/old"]
  = Some (Raised (ValueError "Invalid IPv6 URL") st)
  ∧ ∀ u, u ∈ sink st →
         is_allowed u docs ["guide/old"] = Ok true
         ∧ (u = docs ∨ is_http u = true).
Proof.
  intros guide st.
  assert (crawl 3 docs docs ["guide/old"]
          = Some (Raised (ValueError "Invalid IPv6 URL") st)) as Hrun
    by (vm_compute; reflexivity).
  split; [exact Hrun|].
  apply (crawl_sink_in_scope 3 docs docs ["guide/old"] docs docs
           (Raised (ValueError "Invalid IPv6 URL") st));
    [vm_compute; reflexivity|exact Hrun].
Defined.

End malformed_href_crawl.

(** ** The characters of a normalised URL *)

Section normalized_characters.
Context `{UrlLib}.
Implicit Types (s t u r : string) (a c d : ascii).

Lemma contains_slice_to n s c :
  contains s c = false → contains (slice_to n s) c = false.
Proof.
  revert n. induction s as [|a s IH]; intros [|n]; cbn; try done.
  intros [-> Hs]%orb_false_iff. by rewrite IH.
Qed.

Lemma contains_slice_from n s c :
  contains s c = false → contains (slice_from n s) c = false.
Proof.
  revert n. induction s as [|a s IH]; intros [|n]; cbn; try done.
  intros [_ Hs]%orb_false_iff. by apply IH.
Qed.

Lemma contains_partition s d c :
  contains s c = false →
  contains (partition s d).1.1 c = false ∧ contains (partition s d).2 c = false.
Proof.
  induction s as [|a s IH]; cbn; [done|].
  intros [Ha Hs]%orb_false_iff. destruct (chr_eqb a d); [done|].
  destruct (IH Hs) as [? ?]. destruct (partition s d) as [[b f] r]. cbn in *.
  by rewrite Ha.
Qed.

Lemma contains_partition_before s c : contains (partition s c).1.1 c = false.
Proof.
  induction s as [|a s IH]; cbn; [done|].
  destruct (chr_eqb a c) eqn:Ha; [done|].
  destruct (partition s c) as [[b f] r]. cbn in *. by rewrite Ha.
Qed.

Lemma contains_slice_to_find n s c :
  (∀ i, find s c = Some i → n ≤ i) → contains (slice_to n s) c = false.
Proof.
  revert n. induction s as [|a s IH]; intros [|n] Hfind; cbn; try done.
  cbn in Hfind. destruct (chr_eqb a c) eqn:Ha.
  - specialize (Hfind 0 eq_refl). lia.
  - cbn. apply IH. intros i Hi. specialize (Hfind (S i)). rewrite Hi in Hfind.
    specialize (Hfind eq_refl). lia.
Qed.

Lemma contains_remove (f : ascii → bool) s c :
  f c = true → contains (remove f s) c = false.
Proof.
  intros Hc. induction s as [|a s IH]; cbn; [done|].
  destruct (f a) eqn:Ha; [done|]. cbn. rewrite IH, orb_false_r.
  destruct (chr_eqb a c) eqn:Hac; [|done]. apply chr_eqb_true in Hac. congruence.
Qed.

Lemma contains_lower s c :
  scheme_char c = false → all scheme_char s = true → contains (lower s) c = false.
Proof. intros Hc Hs. by apply (all_not_contains scheme_char), all_scheme_lower. Qed.

Lemma dropped_char_cases c :
  dropped_char c = true →
  (c = "#"%char ∨ unsafe_url_byte c = true)
  ∧ scheme_char c = false
  ∧ chr_eqb "/" c = false ∧ chr_eqb ":" c = false ∧ chr_eqb "?" c = false.
Proof. destruct c as [[] [] [] [] [] [] [] []]; cbn; intros; try done; auto. Qed.

(** [_splitnetloc] cuts at a delimiter that is not behind the first [#]. *)
Lemma splitnetloc_cut url :
  ∃ delim,
    splitnetloc url 2
    = (slice_to (delim - 2) (slice_from 2 url), slice_from delim url)
    ∧ ∀ i, find (slice_from 2 url) "#" = Some i → delim - 2 ≤ i.
Proof.
  unfold splitnetloc. cbn [foldl]. unfold find_from. eexists. split; [reflexivity|].
  intros i ->. cbn [fmap option_fmap option_map].
  destruct (find _ "/"), (find _ "?"); cbn [fmap option_fmap option_map]; lia.
Qed.

(** no component that [urlsplit] returns but the fragment has a dropped
    character *)
Lemma urlsplit_dropped url parsed c :
  urlsplit url "" = Ok parsed → dropped_char c = true →
  contains parsed.(scheme) c = false
  ∧ contains parsed.(netloc) c = false
  ∧ contains parsed.(path) c = false
  ∧ contains parsed.(query) c = false.
Proof.
  intros Hsplit (Hc & Hscheme & _)%dropped_char_cases. revert Hsplit.
  unfold urlsplit. cbn [lstrip rstrip_set remove].
  set (cleaned := remove unsafe_url_byte (lstrip c0_control_or_space url)).
  assert (unsafe_url_byte c = true → contains cleaned c = false) as Hcleaned.
  { intros ?. by apply contains_remove. }
  clearbody cleaned.
  (* the scheme *)
  assert (∃ sch rest,
            match find cleaned ":", cleaned with
            | Some (S i), String u0 _ =>
                if is_ascii_alpha u0 && all scheme_char (slice_to (S i) cleaned)
                then (lower (slice_to (S i) cleaned), slice_from (S (S i)) cleaned)
                else ("", cleaned)
            | _, _ => ("", cleaned)
            end = (sch, rest)
            ∧ contains sch c = false
            ∧ (unsafe_url_byte c = true → contains rest c = false))
    as (sch & rest & -> & Hsch & Hrest).
  { destruct (find cleaned ":") as [[|i]|]; [by eauto| |by eauto].
    destruct cleaned as [|u0 cleaned']; [by eauto|].
    destruct (is_ascii_alpha u0 && all scheme_char _) eqn:Hdetect; [|by eauto].
    apply andb_true_iff in Hdetect as [_ Hall].
    eexists _, _. split; [reflexivity|]. split; [by apply contains_lower|].
    intros ?. apply contains_slice_from. auto. }
  clear Hcleaned cleaned.
  (* the authority *)
  assert (∀ nl rest',
            (if String.eqb (slice_to 2 rest) "//" then
               let '(netloc, url) := splitnetloc rest 2 in
               if (contains netloc "[" && negb (contains netloc "]"))
                  || (contains netloc "]" && negb (contains netloc "["))
               then Raise invalid_ipv6
               else
                 _ ← (if contains netloc "[" && contains netloc "]"
                      then check_bracketed_netloc netloc else Ok ());
                 Ok (netloc, url)
             else Ok ("", rest)) = Ok (nl, rest') →
            contains nl c = false
            ∧ (unsafe_url_byte c = true → contains rest' c = false))
    as Hauthority.
  { intros nl rest'. destruct (String.eqb (slice_to 2 rest) "//").
    2:{ by intros [= <- <-]. }
    destruct (splitnetloc_cut rest) as (delim & -> & Hdelim).
    destruct (_ || _); [done|].
    destruct (if contains _ "[" && contains _ "]" then _ else _);
      cbn [mbind result_bind]; [|done].
    intros [= <- <-]. split.
    - destruct Hc as [->|Hc].
      + exact (contains_slice_to_find _ (slice_from 2 rest) "#" Hdelim).
      + apply contains_slice_to. exact (contains_slice_from 2 rest c (Hrest Hc)).
    - intros ?. by apply contains_slice_from, Hrest. }
  destruct (if String.eqb (slice_to 2 rest) "//" then _ else _)
    as [[nl rest']|e]; cbn [mbind result_bind]; [|done].
  destruct (Hauthority nl rest' eq_refl) as [Hnl Hrest'].
  clear Hauthority Hrest rest.
  (* the fragment and the query *)
  assert (∃ body frag,
            (if contains rest' "#"
             then let '(u, _, f) := partition rest' "#" in (u, f)
             else (rest', "")) = (body, frag)
            ∧ contains body c = false) as (body & frag & -> & Hbody).
  { destruct (contains rest' "#") eqn:Hhash.
    - pose proof (contains_partition_before rest' "#") as Hbefore.
      pose proof (contains_partition rest' "#" c) as Hparts.
      destruct (partition rest' "#") as [[u f1] f]. cbn in *.
      eexists _, _. split; [reflexivity|].
      destruct Hc as [->|Hc]; [done|]. by apply Hparts, Hrest'.
    - eexists _, _. split; [reflexivity|].
      destruct Hc as [->|Hc]; [done|]. by apply Hrest'. }
  pose proof (contains_partition body "?" c Hbody) as Hparts.
  destruct (contains body "?").
  - destruct (partition body "?") as [[u f1] q]. cbn in Hparts.
    intros [= <-]. cbn. by destruct Hparts.
  - intros [= <-]. cbn. done.
Qed.

Lemma urlunsplit_dropped sch nl p q c :
  dropped_char c = true →
  contains sch c = false → contains nl c = false →
  contains p c = false → contains q c = false →
  contains (urlunsplit (mkSplit sch nl p q "")) c = false.
Proof.
  intros (_ & _ & Hslash & Hcolon & Hquestion)%dropped_char_cases Hsch Hnl Hp Hq.
  unfold urlunsplit. cbn [scheme netloc path query fragment nonempty].
  repeat match goal with
         | |- context [if ?b then _ else _] => destruct b
         end;
    rewrite ?contains_app; cbn [contains];
    rewrite ?Hsch, ?Hnl, ?Hp, ?Hq, ?Hslash, ?Hcolon, ?Hquestion; done.
Qed.

Lemma all_negb_contains (f : ascii → bool) s :
  (∀ c, f c = true → contains s c = false) → all (λ a, negb (f a)) s = true.
Proof.
  induction s as [|a s IH]; cbn; [done|]. intros Hs.
  destruct (f a) eqn:Ha.
  - specialize (Hs a Ha). by rewrite chr_eqb_refl in Hs.
  - cbn. apply IH. intros c Hc. specialize (Hs c Hc).
    by apply orb_false_iff in Hs as [_ ?].
Qed.

Lemma normalize_url_dropped url normalized c :
  normalize_url url = Ok normalized → dropped_char c = true →
  contains normalized c = false.
Proof.
  unfold normalize_url.
  destruct (urlsplit url "") as [parsed|e] eqn:Hsplit; cbn [mbind result_bind];
    [|done].
  cbn [scheme netloc path query fragment].
  set (unsplit := urlunsplit _).
  intros Hresult Hc.
  assert (contains unsplit c = false) as Hunsplit.
  { destruct (urlsplit_dropped url parsed c Hsplit Hc) as (? & ? & ? & ?).
    by apply urlunsplit_dropped. }
  clearbody unsplit.
  destruct (endswith unsplit "/" && _); injection Hresult as <-; [|done].
  destruct (contains (rstrip unsplit "/") c) eqn:Hr; [|done].
  apply contains_rstrip in Hr. by rewrite Hunsplit in Hr.
Qed.

(** X5: whatever its argument, a URL that [normalize_url] returns has no
    [#], so no fragment, and no tab, CR or LF: it is one line of the sink. *)
Theorem normalize_url_drops_fragment_and_newlines url normalized :
  normalize_url url = Ok normalized →
  all (λ a, negb (dropped_char a)) normalized = true.
Proof.
  intros Hresult. apply all_negb_contains. intros c Hc.
  by apply (normalize_url_dropped url).
Qed.

End normalized_characters.

Lemma normalize_url_drops_fragment_and_newlines_witness :
  let url := String "009" "HTTPS://x.com/a" +:+ String "010" "b/?q#frag" in
  normalize_url (H := lenient_lib) url = Ok "https://x.com/ab/?q"
  ∧ all (λ a, negb (dropped_char a)) "https://x.com/ab/?q" = true.
Proof.
  intros url.
  assert (normalize_url (H := lenient_lib) url = Ok "https://x.com/ab/?q") as Hrun
    by (vm_compute; reflexivity).
  split; [exact Hrun|].
  exact (normalize_url_drops_fragment_and_newlines (H := lenient_lib) url _ Hrun).
Defined.

(** ** URLs with the same normal form *)

Section same_normal_form.
Context `{UrlLib}.

(** X6: absolute URLs that differ only in the case of the scheme, in the
    fragment, or in a query that is empty have the same normal form: the
    crawler takes them for one page. *)
Theorem normalize_url_scheme_case_fragment s h p q f :
  well_formed s h p q f = true →
  normalize_url (absolute_url s h p q f)
  = normalize_url (absolute_url (lower s) h p (kept_query q) None).
Proof.
  intros Hwf.
  assert (well_formed (lower s) h p (kept_query q) None = true) as Hwf'.
  { apply well_formed_spec in Hwf
      as ((a & s' & -> & Ha) & Hs & Hh & Hhost & Hp & Hpath & Hq & _).
    apply well_formed_intro; try done.
    - exists (lower_chr a), (lower s'). split; [done|]. by apply lower_chr_alpha.
    - by apply all_scheme_lower.
    - destruct q as [x|]; [|done]. cbn. by destruct (nonempty x). }
  rewrite (normalize_absolute _ _ _ _ _ Hwf), (normalize_absolute _ _ _ _ _ Hwf').
  rewrite lower_idem. do 3 f_equal.
  destruct q as [x|]; [|done]. cbn. destruct (nonempty x) eqn:Hx; [|done].
  cbn. by rewrite Hx.
Qed.

End same_normal_form.

Lemma normalize_url_scheme_case_fragment_witness :
  normalize_url (H := lenient_lib)
    (absolute_url "HTTPS" "x.com" "/docs/a" (Some "") (Some "top"))
  = normalize_url (H := lenient_lib)
      (absolute_url "https" "x.com" "/docs/a" None None).
Proof.
  exact (normalize_url_scheme_case_fragment (H := lenient_lib)
           "HTTPS" "x.com" "/docs/a" (Some "") (Some "top") eq_refl).
Defined.

(** ** The scope filter and its exclude entries *)

Section is_allowed_excludes.
Context `{UrlLib}.

Lemma is_allowed_loop_false relative_path excludes :
  is_allowed_loop relative_path excludes = false ↔
  ∃ raw, raw ∈ excludes ∧ startswith relative_path (exclude_entry raw) = true.
Proof.
  induction excludes as [|raw excludes IH]; cbn [is_allowed_loop].
  - split; [done|]. intros (raw & Hin & _). by apply elem_of_nil in Hin.
  - fold (exclude_entry raw).
    destruct (startswith relative_path (exclude_entry raw)) eqn:Hraw.
    + split; [|done]. intros _. exists raw. split; [left|done].
    + rewrite IH. split.
      * intros (x & ? & ?). exists x. split; [by right|done].
      * intros (x & [->|?]%elem_of_cons & Hx); [congruence|eauto].
Qed.

(** X7: the verdict of [is_allowed] depends on the exclude entries only
    through the set of their forms with a leading slash: neither their
    order, nor a repetition, nor a leading slash matters. *)
Theorem is_allowed_excludes_as_set url base_prefix excludes1 excludes2 :
  (∀ x, x ∈ exclude_entry <$> excludes1 ↔ x ∈ exclude_entry <$> excludes2) →
  is_allowed url base_prefix excludes1 = is_allowed url base_prefix excludes2.
Proof.
  intros Hset. unfold is_allowed.
  destruct (startswith url base_prefix); cbn [negb]; [|done].
  destruct (urlsplit base_prefix "") as [base_parts|]; cbn [mbind result_bind];
    [|done].
  destruct (urlsplit url "") as [url_parts|]; cbn [mbind result_bind]; [|done].
  f_equal. set (relative_path := slice_from _ _).
  assert (∀ l1 l2,
            (∀ x, x ∈ exclude_entry <$> l1 → x ∈ exclude_entry <$> l2) →
            is_allowed_loop relative_path l1 = false →
            is_allowed_loop relative_path l2 = false) as Hle.
  { intros l1 l2 Hsub (raw & Hin & Hraw)%is_allowed_loop_false.
    apply is_allowed_loop_false.
    assert (exclude_entry raw ∈ exclude_entry <$> l2) as Hin2.
    { apply Hsub, list_elem_of_fmap. eauto. }
    apply list_elem_of_fmap in Hin2 as (raw2 & Heq & Hin2).
    exists raw2. split; [done|]. by rewrite <-Heq. }
  destruct (is_allowed_loop relative_path excludes1) eqn:H1,
           (is_allowed_loop relative_path excludes2) eqn:H2; try done.
  - apply (Hle excludes2 excludes1) in H2; [congruence|]. intros x. apply Hset.
  - apply (Hle excludes1 excludes2) in H1; [congruence|]. intros x. apply Hset.
Qed.

(** X8: the base prefix itself passes the filter whatever is excluded: the
    path that is left of it is empty, and an exclude entry begins with a
    slash. *)
Theorem is_allowed_base_prefix base_prefix excludes parts :
  urlsplit base_prefix "" = Ok parts →
  is_allowed base_prefix base_prefix excludes = Ok true.
Proof.
  intros Hsplit. unfold is_allowed.
  assert (startswith base_prefix base_prefix = true) as ->.
  { apply startswith_spec. exists "". by rewrite str_app_nil_r. }
  cbn [negb]. rewrite Hsplit. cbn [mbind result_bind]. f_equal.
  assert (slice_from (len parts.(path)) parts.(path) = "") as ->.
  { generalize parts.(path). intros s. induction s as [|a s IH]; [done|exact IH]. }
  destruct (is_allowed_loop "" excludes) eqn:Hloop; [done|].
  apply is_allowed_loop_false in Hloop as (raw & _ & Hraw).
  unfold exclude_entry in Hraw.
  destruct (startswith raw "/") eqn:Hslash; [by destruct raw|done].
Qed.

End is_allowed_excludes.

Lemma is_allowed_excludes_as_set_witness :
  is_allowed (H := lenient_lib) "https://x.com/docs/ref/a" docs
             ["ref"; "/api"; "ref"]
  = is_allowed (H := lenient_lib) "https://x.com/docs/ref/a" docs
               ["api"; "/ref"].
Proof.
  apply (is_allowed_excludes_as_set (H := lenient_lib)).
  intros x. vm_compute exclude_entry. cbn [fmap list_fmap].
  rewrite !elem_of_cons. split; intros [->|[->|Hin]]; auto.
Defined.

Lemma is_allowed_base_prefix_witness :
  is_allowed (H := lenient_lib) docs docs ["/"; ""; "docs"] = Ok true.
Proof.
  exact (is_allowed_base_prefix (H := lenient_lib) docs ["/"; ""; "docs"] _ eq_refl).
Defined.

(** ** [AnchorCollector] *)

Section anchor_collector.
Implicit Types (attrs : list (string * option string)) (hrefs : gset string).

Lemma handle_starttag_spec tag attrs hrefs value :
  value ∈ handle_starttag tag attrs hrefs ↔
  value ∈ hrefs
  ∨ (tag = "a" ∧ ("href", Some value) ∈ attrs ∧ value ≠ "").
Proof.
  unfold handle_starttag. destruct (String.eqb_spec tag "a") as [->|Htag]; cbn [negb].
  2:{ split; [auto|]. intros [?|[? _]]; done. }
  revert hrefs. induction attrs as [|[attr [v|]] attrs IH]; intros hrefs;
    cbn [foldl].
  - rewrite elem_of_nil. tauto.
  - rewrite IH, elem_of_cons.
    assert (value ∈ (if String.eqb attr "href" && nonempty v
                     then {[v]} ∪ hrefs else hrefs)
            ↔ value ∈ hrefs ∨ (("href", Some value) = (attr, Some v) ∧ value ≠ ""))
      as ->; [|tauto].
    destruct (String.eqb_spec attr "href") as [->|Hattr]; cbn [andb].
    + destruct (nonempty v) eqn:Hv.
      * apply nonempty_true in Hv. rewrite elem_of_union, elem_of_singleton.
        split.
        -- intros [->|?]; auto.
        -- intros [?|[[= ->] _]]; auto.
      * apply nonempty_false in Hv as ->. split; [auto|].
        intros [?|[[= ->] ?]]; done.
    + split; [auto|]. intros [?|[[= ?] _]]; [done|]. by subst attr.
  - rewrite IH, elem_of_cons. split.
    + intros [?|(? & ? & ?)]; auto.
    + intros [?|(? & [[=]|?] & ?)]; auto.
Qed.

(** X9: the collector ends with exactly the values of the [href]
    attributes of the [a] start tags that are not empty; a value is held
    once however often it occurs, and no other tag or attribute adds one. *)
Theorem collected_hrefs_spec tags value :
  value ∈ collected_hrefs tags ↔
  value ≠ "" ∧ ∃ attrs, ("a", attrs) ∈ tags ∧ ("href", Some value) ∈ attrs.
Proof.
  unfold collected_hrefs.
  assert (∀ hrefs,
            value ∈ foldl (λ hrefs '(tag, attrs), handle_starttag tag attrs hrefs)
                          hrefs tags ↔
            value ∈ hrefs
            ∨ (value ≠ "" ∧ ∃ attrs, ("a", attrs) ∈ tags
                                     ∧ ("href", Some value) ∈ attrs)) as Hgen.
  { induction tags as [|[tag attrs] tags IH]; intros hrefs; cbn [foldl].
    - split; [auto|]. intros [?|(_ & attrs & Hin & _)]; [done|].
      by apply elem_of_nil in Hin.
    - rewrite IH, handle_starttag_spec. split.
      + intros [[?|(-> & ? & ?)]|(? & attrs' & ? & ?)]; auto.
        * right. split; [done|]. exists attrs. split; [left|done].
        * right. split; [done|]. exists attrs'. split; [by right|done].
      + intros [?|(? & attrs' & [[= <- <-]|?]%elem_of_cons & ?)]; auto.
        right. split; [done|]. eauto. }
  rewrite Hgen. split; [|auto]. intros [Hin|?]; [|done].
  by apply not_elem_of_empty in Hin.
Qed.

End anchor_collector.

(** ** What the combine tool leaves of the file system *)

Section combine_file_system.
Import Combine.
Context `{FileBuffer}.
Implicit Types (fs : filesystem) (k cwd p : list string).

(** a file system with the entries of another, where its directories are
    directories *)
Lemma resolve_mono fs fs' cwd p k :
  (∀ j, is_directory fs j = true → is_directory fs' j = true) →
  resolve fs cwd p = Ok k → resolve fs' cwd p = Ok k.
Proof.
  intros Hdirs. unfold resolve.
  destruct (match p with "/" :: rest => ([], rest) | _ => (cwd, p) end)
    as [start components].
  revert start. induction components as [|c components IH]; intros start;
    cbn [foldl]; [done|].
  cbn [mbind result_bind]. destruct (is_directory fs start) eqn:Hstart.
  - rewrite (Hdirs _ Hstart). apply IH.
  - intros Hraise. exfalso. revert Hraise.
    generalize (OSError (if present fs start then "NotADirectoryError"
                         else "FileNotFoundError")).
    clear. intros e. induction components as [|c' components IH]; [done|].
    cbn [foldl mbind result_bind]. exact IH.
Qed.

Lemma os_mkdir_ok fs cwd p fs' :
  os_mkdir fs cwd p = Ok fs' →
  ∃ k, resolve fs cwd p = Ok k ∧ k ≠ [] ∧ fs !! k = None
       ∧ fs' = <[k := Dir]> fs.
Proof.
  unfold os_mkdir. destruct (resolve fs cwd p) as [k|e];
    cbn [mbind result_bind]; [|done].
  destruct (present fs k) eqn:Hpresent; [done|]. intros [= <-].
  unfold present in Hpresent. apply orb_false_iff in Hpresent as [Hk Hnone].
  apply bool_decide_eq_false in Hk, Hnone.
  exists k. split_and!; [done..| |done].
  destruct (fs !! k) eqn:Hlookup; [|done]. destruct Hnone. eauto.
Qed.

Lemma extends_with_directories fs fs' cwd p j :
  extends_with fs fs' cwd p → is_directory fs j = true → is_directory fs' j = true.
Proof.
  intros [Hkeep _]. unfold is_directory.
  intros [Hj|Hj]%orb_true_iff; apply orb_true_iff.
  - by left.
  - right. apply bool_decide_eq_true in Hj. apply bool_decide_eq_true. auto.
Qed.

Lemma extends_with_refl fs cwd p : extends_with fs fs cwd p.
Proof. split; [done|]. intros k e Hnone He. congruence. Qed.

Lemma extends_with_trans fs1 fs2 fs3 cwd p :
  extends_with fs1 fs2 cwd p → extends_with fs2 fs3 cwd p →
  extends_with fs1 fs3 cwd p.
Proof.
  intros H12 H23. pose proof H12 as [Hkeep12 Hnew12].
  pose proof H23 as [Hkeep23 Hnew23]. split; [by auto|].
  intros k e Hnone He. destruct (fs2 !! k) as [e2|] eqn:H2.
  - pose proof (Hkeep23 _ _ H2) as H3.
    destruct (Hnew12 k e2 Hnone H2) as [-> [n Hn]].
    split; [congruence|]. exists n. eapply resolve_mono; [|exact Hn].
    intros j. by apply extends_with_directories with cwd p.
  - by apply Hnew23.
Qed.

Lemma os_mkdir_extends fs cwd p n fs' :
  os_mkdir fs cwd (take n p) = Ok fs' → extends_with fs fs' cwd p.
Proof.
  intros (k & Hk & Hne & Hnone & ->)%os_mkdir_ok. split.
  - intros j e Hj. rewrite lookup_insert_ne; [done|]. congruence.
  - intros j e Hj He. destruct (decide (j = k)) as [->|Hjk].
    + rewrite lookup_insert_eq in He. injection He as <-. split; [done|].
      exists n. eapply resolve_mono; [|exact Hk].
      intros i. unfold is_directory.
      intros [Hi|Hi]%orb_true_iff; apply orb_true_iff; [by left|right].
      apply bool_decide_eq_true in Hi. apply bool_decide_eq_true.
      rewrite lookup_insert_ne; [done|]. congruence.
    + rewrite lookup_insert_ne in He by done. congruence.
Qed.

Lemma mkdir_parents_extends fs cwd p n fs' oe :
  mkdir_parents fs cwd p n = (fs', oe) → extends_with fs fs' cwd p.
Proof.
  revert fs fs' oe. induction n as [|n IH]; intros fs fs' oe;
    cbn [mkdir_parents].
  - destruct (os_mkdir fs cwd (take 0 p)) as [fs0|e] eqn:Hmk.
    + intros [= <- <-]. by eapply os_mkdir_extends.
    + destruct (is_not_found e); [|destruct (is_dir fs cwd _)];
        intros [= <- <-]; apply extends_with_refl.
  - destruct (os_mkdir fs cwd (take (S n) p)) as [fs0|e] eqn:Hmk.
    { intros [= <- <-]. by eapply os_mkdir_extends. }
    destruct (is_not_found e).
    2:{ destruct (is_dir fs cwd _); intros [= <- <-]; apply extends_with_refl. }
    case_bool_decide as Hparent.
    { intros [= <- <-]. apply extends_with_refl. }
    destruct (mkdir_parents fs cwd p n) as [fs1 [e1|]] eqn:Hrec.
    { intros [= <- <-]. by eapply IH. }
    pose proof (IH _ _ _ Hrec) as H1.
    destruct (os_mkdir fs1 cwd (take (S n) p)) as [fs2|e2] eqn:Hmk2.
    { intros [= <- <-]. eapply extends_with_trans; [exact H1|].
      by eapply os_mkdir_extends. }
    destruct (is_not_found e2); [|destruct (is_dir fs1 cwd _)];
      by intros [= <- <-].
Qed.

Lemma open_w_ok fs cwd p out fs' :
  open_w fs cwd p = Ok (out, fs') →
  resolve fs cwd p = Ok out ∧ is_directory fs out = false
  ∧ fs' = <[out := File ""]> fs.
Proof.
  unfold open_w. destruct (resolve fs cwd p) as [k|e];
    cbn [mbind result_bind]; [|done].
  destruct (is_directory fs k) eqn:Hdir; [done|]. by intros [= <- <-].
Qed.



(** X10: a run of the combine tool, however it ends, leaves every entry of
    the file system as it was, but the entry that the output path leads
    to; what it adds besides are directories that first parts of the
    parent of the output path lead to. *)
Theorem combine_keeps_other_entries fs cwd input_dir output_file k :
  let fs' := fs_after fs (main fs cwd input_dir output_file) in
  resolve fs' cwd (Path output_file) ≠ Ok k →
  (∀ e, fs !! k = Some e → fs' !! k = Some e)
  ∧ (fs !! k = None →
     ∀ e, fs' !! k = Some e →
          e = Dir
          ∧ ∃ n, resolve fs' cwd (take n (parent (Path output_file))) = Ok k).
Proof.
  intros fs'. subst fs'. unfold main.
  assert (∀ fs0, extends_with fs fs0 cwd (parent (Path output_file)) →
                 (∀ e, fs !! k = Some e → fs0 !! k = Some e)
                 ∧ (fs !! k = None →
                    ∀ e, fs0 !! k = Some e →
                         e = Dir
                         ∧ ∃ n, resolve fs0 cwd
                                  (take n (parent (Path output_file))) = Ok k))
    as Hext.
  { intros fs0 [Hkeep Hnew]. split; [by auto|]. intros Hnone e He. by eapply Hnew. }
  destruct (negb _); cbn [fs_after].
  { intros _. apply Hext, extends_with_refl. }
  destruct (mkdir_parents fs cwd _ _) as [fs1 [e1|]] eqn:Hmkdir; cbn [fs_after].
  { intros _. by eapply Hext, mkdir_parents_extends. }
  pose proof (mkdir_parents_extends _ _ _ _ _ _ Hmkdir) as Hfs1.
  destruct (open_w fs1 cwd (Path output_file)) as [[out fs2]|e2] eqn:Hopen;
    cbn [fs_after].
  2:{ intros _. by apply Hext. }
  apply open_w_ok in Hopen as (Hout & Hnodir & ->).
  assert (∀ written,
            resolve (<[out := File written]> fs1) cwd (Path output_file) ≠ Ok k →
            (∀ e, fs !! k = Some e →
                  (<[out := File written]> fs1 : filesystem) !! k = Some e)
            ∧ (fs !! k = None →
               ∀ e, (<[out := File written]> fs1 : filesystem) !! k = Some e →
                    e = Dir
                    ∧ ∃ n, resolve (<[out := File written]> fs1) cwd
                             (take n (parent (Path output_file))) = Ok k))
    as Hfinal.
  { intros written Hk.
    assert (∀ j, is_directory fs1 j = true →
                 is_directory (<[out := File written]> fs1) j = true) as Hdirs.
    { intros j Hj. assert (j ≠ out) as Hne by (intros ->; congruence).
      unfold is_directory in *. by rewrite lookup_insert_ne. }
    assert (k ≠ out) as Hne.
    { intros ->. apply Hk. by eapply resolve_mono. }
    destruct Hfs1 as [Hkeep Hnew]. split.
    - intros e He. rewrite lookup_insert_ne by done. by apply Hkeep.
    - intros Hnone e. rewrite lookup_insert_ne by done. intros He.
      destruct (Hnew k e Hnone He) as [-> [n Hn]]. split; [done|].
      exists n. by eapply resolve_mono. }
  destruct (write_all _ _ _ _ _ _ _ _) as [[written count] [e|]];
    cbn [fs_after]; rewrite insert_insert_eq; apply Hfinal.
Qed.



End combine_file_system.

Section combine_file_system_examples.
Import Combine.
#[local] Existing Instance unbuffered.

(** The output path leaves a directory that does not exist by [".."]:
    the directory is made. *)
Lemma combine_keeps_other_entries_witness :
  let fs' := fs_after exports (main exports ["w"] "pages" "new/../all.txt") in
  fs' !! ["w"; "pages"; "a.txt"] = Some (File "X")
  ∧ fs' !! ["w"; "new"] = Some Dir
  ∧ (∀ e, fs' !! ["w"; "new"] = Some e →
          e = Dir
          ∧ ∃ n, resolve fs' ["w"] (take n (parent (Path "new/../all.txt")))
                 = Ok ["w"; "new"]).
Proof.
  intros fs'. split_and!.
  - apply (combine_keeps_other_entries exports ["w"] "pages" "new/../all.txt"
             ["w"; "pages"; "a.txt"]);
      [vm_compute; discriminate|vm_compute; reflexivity].
  - vm_compute. reflexivity.
  - apply (combine_keeps_other_entries exports ["w"] "pages" "new/../all.txt"
             ["w"; "new"]); [vm_compute; discriminate|vm_compute; reflexivity].
Defined.

(** An input directory that is named through a directory that does not
    exist is not found. *)
Lemma combine_input_through_missing_directory :
  main exports ["w"] "nope/.." "all.txt" = UsageError.
Proof. vm_compute. reflexivity. Qed.


End combine_file_system_examples.

(** ** [extract_text.py]: the file that a URL is stored in *)

Section derive_output_path_properties.
Import Extract.
Context `{UrlLib}.
Implicit Types (s t : string) (a c : ascii).

(** [_splitnetloc] cuts at a delimiter that is not behind the first [/]. *)
Lemma splitnetloc_no_slash url : contains (splitnetloc url 2).1 "/" = false.
Proof.
  unfold splitnetloc. cbn [foldl fst]. unfold find_from.
  apply contains_slice_to_find. intros i ->.
  cbn [fmap option_fmap option_map].
  destruct (find _ "?"), (find _ "#"); cbn [fmap option_fmap option_map]; lia.
Qed.

Lemma urlsplit_netloc_no_slash url default_scheme parsed :
  urlsplit url default_scheme = Ok parsed → contains parsed.(netloc) "/" = false.
Proof.
  unfold urlsplit.
  set (cleaned := remove unsafe_url_byte (lstrip c0_control_or_space url)).
  clearbody cleaned.
  match goal with
  | |- context [match ?t with (_, _) => _ end] => destruct t as [sch rest]
  end.
  pose proof (splitnetloc_no_slash rest) as Hnl.
  destruct (String.eqb (slice_to 2 rest) "//").
  - destruct (splitnetloc rest 2) as [nl rest']. cbn [fst] in Hnl.
    destruct (_ || _); [done|].
    destruct (if contains nl "[" && contains nl "]" then _ else _);
      cbn [mbind result_bind]; [|done].
    destruct (if contains rest' "#" then _ else _) as [body frag].
    destruct (if contains body "?" then _ else _) as [pth qry].
    by intros [= <-].
  - cbn [mbind result_bind].
    destruct (if contains rest "#" then _ else _) as [body frag].
    destruct (if contains body "?" then _ else _) as [pth qry].
    by intros [= <-].
Qed.

Lemma split_no_sep s c x : x ∈ split s c → contains x c = false.
Proof.
  revert x. induction s as [|a s IH]; intros x; cbn [split].
  - by intros ->%list_elem_of_singleton.
  - destruct (chr_eqb a c) eqn:Ha.
    + intros [->|Hx]%elem_of_cons; [done|by apply IH].
    + destruct (split s c) as [|h t].
      * intros ->%list_elem_of_singleton. cbn. by rewrite Ha.
      * intros [->|Hx]%elem_of_cons.
        -- cbn. rewrite Ha. apply IH. by left.
        -- apply IH. by right.
Qed.

Lemma split_noop s c : contains s c = false → split s c = [s].
Proof.
  induction s as [|a s IH]; cbn; [done|].
  intros [-> Hs]%orb_false_iff. by rewrite (IH Hs).
Qed.

Lemma startswith_no_slash s : contains s "/" = false → startswith s "/" = false.
Proof.
  destruct s as [|a s]; [done|]. cbn [contains startswith].
  intros [Ha _]%orb_false_iff.
  unfold chr_eqb in *. by rewrite Ascii.eqb_sym, Ha.
Qed.

(** [joinpath] on arguments that are single components *)
Lemma joinpath_components base args :
  Forall (λ arg, contains arg "/" = false) args →
  joinpath base args
  = base ++ List.filter (λ part, nonempty part && negb (String.eqb part ".")) args.
Proof.
  unfold joinpath. intros Hargs. revert base.
  induction Hargs as [|arg args Harg _ IH]; intros base; cbn [foldl List.filter].
  - by rewrite app_nil_r.
  - rewrite (startswith_no_slash arg Harg), IH. unfold Combine.Path.
    rewrite (startswith_no_slash arg Harg), (split_noop arg "/" Harg).
    cbn [List.filter]. destruct (nonempty arg && _); [|by rewrite app_nil_r].
    by rewrite <-app_assoc.
Qed.

Lemma endswith_str_app s suffix : Combine.endswith_str (s +:+ suffix) suffix = true.
Proof.
  unfold Combine.endswith_str. rewrite len_app.
  apply andb_true_iff. split; [apply Nat.leb_le; lia|].
  replace (len s + len suffix - len suffix) with (len s) by lia.
  apply String.eqb_eq. induction s as [|a s IH]; [by destruct suffix|exact IH].
Qed.

Lemma last_snoc (l : list string) x d : List.last (l ++ [x]) d = x.
Proof. apply List.last_last. Qed.

(** X12: the path that [derive_output_path] returns lies below the base
    directory as the paths are written, and its last part is a name of at
    least one character, without a dot or a slash, followed by [.txt]: the
    combine tool finds the file with its pattern. *)
Theorem derive_output_path_shape base_dir url p :
  derive_output_path base_dir url = Ok p →
  ∃ dirs stem,
    p = base_dir ++ dirs ++ [stem +:+ ".txt"]
    ∧ stem ≠ "" ∧ contains stem "." = false ∧ contains stem "/" = false
    ∧ (∀ d, d ∈ dirs → d ≠ "" ∧ d ≠ "." ∧ contains d "/" = false)
    ∧ Combine.endswith_str (List.last p "") ".txt" = true.
Proof.
  unfold derive_output_path.
  destruct (urlsplit url "") as [parsed|e] eqn:Hsplit; cbn [mbind result_bind];
    [|done].
  pose proof (urlsplit_netloc_no_slash _ _ _ Hsplit) as Hnetloc.
  set (found := List.filter nonempty (split (strip_slashes parsed.(path)) "/")).
  assert (Forall (λ seg, seg ≠ "" ∧ contains seg "/" = false) found) as Hfound.
  { apply Forall_forall. intros seg [Hin Hseg]%list_elem_of_In%filter_In. split.
    - by apply nonempty_true.
    - apply (split_no_sep (strip_slashes parsed.(path))). by apply list_elem_of_In. }
  clearbody found.
  set (segments := match found with [] => ["index"] | _ => found end).
  assert (segments ≠ []
          ∧ Forall (λ seg, seg ≠ "" ∧ contains seg "/" = false) segments)
    as [Hne Hsegments].
  { subst segments. destruct found; [|done]. split; [done|].
    by repeat constructor. }
  clearbody segments. clear Hfound found.
  destruct (exists_last Hne) as (dirs0 & filename & ->). clear Hne.
  rewrite last_snoc, removelast_last.
  apply Forall_app in Hsegments as [Hdirs0 Hfile].
  apply Forall_singleton in Hfile as [_ Hfile].
  pose proof (contains_partition_before filename ".") as Hdot.
  pose proof (contains_partition filename "." "/" Hfile) as [Hslash _].
  destruct (partition filename ".") as [[name found_dot] ext].
  cbn [fst] in Hdot, Hslash. lazy beta iota.
  set (stem := if nonempty name then name else "index").
  assert (stem ≠ "" ∧ contains stem "." = false ∧ contains stem "/" = false)
    as (Hstem & Hstem_dot & Hstem_slash).
  { subst stem. destruct (nonempty name) eqn:Hname; [|done].
    by apply nonempty_true in Hname. }
  clearbody stem. intros Hresult.
  assert (p = joinpath base_dir (parsed.(netloc) :: dirs0 ++ [stem +:+ ".txt"]))
    as -> by congruence.
  clear Hresult.
  rewrite joinpath_components.
  2:{ constructor; [done|]. apply Forall_app. split.
      - eapply Forall_impl; [exact Hdirs0|]. by intros ? [_ ?].
      - constructor; [|done]. rewrite contains_app. by rewrite Hstem_slash. }
  set (keep := λ part, nonempty part && negb (String.eqb part ".")).
  change (parsed.(netloc) :: dirs0 ++ [stem +:+ ".txt"])
    with ((parsed.(netloc) :: dirs0) ++ [stem +:+ ".txt"]).
  rewrite List.filter_app.
  assert (List.filter keep [stem +:+ ".txt"] = [stem +:+ ".txt"]) as ->.
  { assert (keep (stem +:+ ".txt") = true) as Hkeep; [|by cbn; rewrite Hkeep].
    subst keep. cbn beta. apply andb_true_iff. split.
    - destruct stem; [done|]. by rewrite str_app_cons.
    - apply negb_true_iff, String.eqb_neq. intros Heq.
      apply (f_equal len) in Heq. rewrite len_app in Heq. cbn in Heq. lia. }
  exists (List.filter keep (parsed.(netloc) :: dirs0)), stem.
  split_and!; [done..| |].
  - intros d [Hin Hkeep]%list_elem_of_In%filter_In.
    apply andb_true_iff in Hkeep as [Hd Hdot'].
    split_and!.
    + by apply nonempty_true.
    + intros ->. done.
    + destruct Hin as [<-|Hin]; [done|].
      apply list_elem_of_In in Hin.
      by apply (proj1 (Forall_forall _ _) Hdirs0 d Hin).
  - rewrite !app_assoc, last_snoc. apply endswith_str_app.
Qed.

(** X13: the file of an absolute URL depends on its host and its path
    only: URLs that differ in the scheme, the query or the fragment are
    stored in the same file, the later over the earlier. *)
Theorem derive_output_path_ignores_query base_dir s s' h p q q' f f' :
  well_formed s h p q f = true → well_formed s' h p q' f' = true →
  derive_output_path base_dir (absolute_url s h p q f)
  = derive_output_path base_dir (absolute_url s' h p q' f').
Proof.
  intros Hwf Hwf'. unfold derive_output_path.
  by rewrite (urlsplit_absolute _ _ _ _ _ "" Hwf),
             (urlsplit_absolute _ _ _ _ _ "" Hwf').
Qed.

End derive_output_path_properties.

Lemma derive_output_path_shape_witness :
  Extract.derive_output_path (H := lenient_lib) ["pages"]
    "https://x.com/docs/v1.2/guide.en.html?hl=en"
  = Ok ["pages"; "x.com"; "docs"; "v1.2"; "guide.txt"]
  ∧ ∃ dirs stem,
      ["pages"; "x.com"; "docs"; "v1.2"; "guide.txt"]
      = ["pages"] ++ dirs ++ [stem +:+ ".txt"]
      ∧ stem ≠ "" ∧ contains stem "." = false ∧ contains stem "/" = false
      ∧ (∀ d, d ∈ dirs → d ≠ "" ∧ d ≠ "." ∧ contains d "/" = false)
      ∧ Combine.endswith_str
          (List.last ["pages"; "x.com"; "docs"; "v1.2"; "guide.txt"] "") ".txt"
        = true.
Proof.
  assert (Extract.derive_output_path (H := lenient_lib) ["pages"]
            "https://x.com/docs/v1.2/guide.en.html?hl=en"
          = Ok ["pages"; "x.com"; "docs"; "v1.2"; "guide.txt"]) as Hrun
    by (vm_compute; reflexivity).
  split; [exact Hrun|].
  exact (derive_output_path_shape (H := lenient_lib) _ _ _ Hrun).
Defined.

Lemma derive_output_path_ignores_query_witness :
  Extract.derive_output_path (H := lenient_lib) ["pages"]
    (absolute_url "https" "x.com" "/docs/a" (Some "hl=en") None)
  = Extract.derive_output_path (H := lenient_lib) ["pages"]
      (absolute_url "http" "x.com" "/docs/a" (Some "hl=de") (Some "top")).
Proof.
  exact (derive_output_path_ignores_query (H := lenient_lib) ["pages"]
           "https" "http" "x.com" "/docs/a" (Some "hl=en") (Some "hl=de")
           None (Some "top") eq_refl eq_refl).
Defined.

(** ** [extract_text.py]: reading the link file that the crawler wrote *)

Section read_links_properties.
Import Extract.
Implicit Types (s t u : string) (a c : ascii) (f : ascii → bool).

Lemma universal_newlines_noop s :
  contains s cr = false → universal_newlines s = s.
Proof.
  induction s as [|a s IH]; cbn [contains universal_newlines]; [done|].
  intros [-> Hs]%orb_false_iff. by rewrite IH.
Qed.

Lemma readlines_line u rest :
  contains u lf = false →
  readlines (u +:+ String lf rest) = (u +:+ String lf "") :: readlines rest.
Proof.
  induction u as [|a u IH]; [done|]. cbn [contains]. 
  intros [Ha Hu]%orb_false_iff. rewrite !str_app_cons. cbn [readlines].
  by rewrite Ha, IH.
Qed.

Lemma len_lstrip f s : len (lstrip f s) ≤ len s.
Proof.
  unfold len. induction s as [|a s IH]; cbn [lstrip]; [done|].
  destruct (f a); cbn in *; lia.
Qed.

Lemma len_rstrip_set f s : len (rstrip_set f s) ≤ len s.
Proof.
  unfold len. induction s as [|a s IH]; cbn [rstrip_set]; [done|].
  destruct (rstrip_set f s); [destruct (f a)|]; cbn in *; lia.
Qed.

Lemma rstrip_set_app_all f s t :
  all f t = true → rstrip_set f (s +:+ t) = rstrip_set f s.
Proof.
  intros Ht. induction s as [|a s IH].
  - rewrite str_app_nil_l. induction t as [|b t IHt]; [done|].
    cbn in Ht. apply andb_true_iff in Ht as [Hb Ht]. cbn [rstrip_set].
    by rewrite (IHt Ht), Hb.
  - rewrite str_app_cons. cbn [rstrip_set]. by rewrite IH.
Qed.

(** a line of the link file that holds a URL without white space at its
    ends is read as this URL *)
Lemma strip_line u :
  u ≠ "" → strip u = u → strip (u +:+ String lf "") = u.
Proof.
  intros Hne Hstrip. unfold strip in *.
  assert (lstrip is_space u = u) as Hl.
  { pose proof (len_lstrip is_space u) as Hlen.
    pose proof (len_rstrip_set is_space (lstrip is_space u)) as Hlen'.
    rewrite Hstrip in Hlen'.
    destruct u as [|a u]; [done|]. cbn [lstrip] in *.
    destruct (is_space a); [|done].
    pose proof (len_lstrip is_space u). unfold len in *. cbn in Hlen'. lia. }
  rewrite Hl in Hstrip.
  assert (lstrip is_space (u +:+ String lf "") = u +:+ String lf "") as ->.
  { destruct u as [|a u]; [done|]. rewrite str_app_cons. cbn [lstrip] in *.
    destruct (is_space a); [|done].
    pose proof (len_lstrip is_space u) as Hlen. rewrite Hl in Hlen.
    unfold len in Hlen. cbn in Hlen. lia. }
  by rewrite rstrip_set_app_all.
Qed.

Lemma read_links_sink_text urls :
  Forall (λ u, u ≠ "" ∧ strip u = u
               ∧ contains u cr = false ∧ contains u lf = false) urls →
  read_links (sink_text urls) = urls.
Proof.
  intros Hurls. unfold read_links.
  rewrite universal_newlines_noop.
  2:{ induction Hurls as [|u urls (_ & _ & Hcr & _) _ IH]; [done|].
      cbn [sink_text foldr]. rewrite !contains_app, Hcr. exact IH. }
  induction Hurls as [|u urls (Hne & Hstrip & _ & Hlf) _ IH]; [done|].
  cbn [sink_text foldr]. unfold Combine.nl. rewrite str_app_cons, str_app_nil_l.
  rewrite (readlines_line u _ Hlf). cbn [fmap list_fmap List.filter].
  rewrite (strip_line u Hne Hstrip).
  apply nonempty_true in Hne. rewrite Hne. f_equal. exact IH.
Qed.

End read_links_properties.

Section crawl_then_extract.
Context `{UrlLib} `{Web}.

Lemma link_target_normalized base ex current href w :
  link_target base ex current href = Ok (Some w) →
  ∃ url, normalize_url url = Ok w.
Proof.
  unfold link_target.
  destruct (urljoin _ href) as [joined|e]; cbn [mbind result_bind]; [|done].
  destruct (normalize_url joined) as [absolute|e] eqn:Hnorm;
    cbn [mbind result_bind]; [|done].
  destruct (negb (is_http absolute)); [done|].
  destruct (is_allowed absolute base ex) as [[]|e]; cbn [mbind result_bind];
    [|done..].
  intros [= <-]. eauto.
Qed.

Lemma seed_normalized start_url base_prefix excludes nb ns :
  seed start_url base_prefix excludes = Ok (nb, initial_state ns) →
  ∃ url, normalize_url url = Ok ns.
Proof.
  unfold seed.
  destruct (normalize_url base_prefix) as [nb'|]; cbn [mbind result_bind]; [|done].
  destruct (urljoin _ start_url) as [joined|]; cbn [mbind result_bind]; [|done].
  destruct (normalize_url joined) as [ns'|] eqn:Hnorm; cbn [mbind result_bind];
    [|done].
  destruct (is_allowed ns' nb' excludes) as [[]|]; cbn [mbind result_bind negb];
    [|done..].
  unfold initial_state. intros [= -> ->]. eauto.
Qed.

(** X14: the link file that [crawl] has written, however it ends, is read
    by [read_links] of the extraction tool as the URLs of the sink, in
    their order, when none of them is empty or has white space at an end;
    no URL of the sink is broken over lines. *)
Theorem read_links_reads_sink fuel start_url base_prefix excludes nb ns o :
  seed start_url base_prefix excludes = Ok (nb, initial_state ns) →
  crawl fuel start_url base_prefix excludes = Some o →
  (∀ u, u ∈ sink (outcome_state o) → u ≠ "" ∧ Extract.strip u = u) →
  Extract.read_links (sink_text (sink (outcome_state o))) = sink (outcome_state o).
Proof.
  intros Hseed Hcrawl Htrimmed.
  destruct (seed_allowed _ _ _ _ _ Hseed) as [_ Hdrain].
  rewrite Hdrain in Hcrawl.
  apply (drain_outcome nb excludes fuel ns) in Hcrawl; [|apply reach_init].
  set (P := λ u, ∃ url, normalize_url url = Ok u).
  assert (P ns) as Hstart by (by eapply seed_normalized).
  assert (∀ u w, P u → edge nb excludes u w → P w) as Hedge.
  { intros u w _ [_ (href & _ & Hw)]. by eapply link_target_normalized. }
  assert (∀ u, u ∈ sink (outcome_state o) → P u) as Hnormalized.
  { destruct o as [st|e st]; cbn [outcome_state].
    - destruct Hcrawl as [Hst _]. by apply (sink_closed nb excludes P ns).
    - destruct Hcrawl as (st1 & Hst1 & Hit).
      by apply (sink_closed_abort nb excludes P ns st1 e). }
  apply read_links_sink_text, Forall_forall. intros u Hu.
  destruct (Htrimmed u Hu) as [? ?]. destruct (Hnormalized u Hu) as [url Hurl].
  split_and!; [done..| |]; by apply (normalize_url_dropped url).
Qed.

End crawl_then_extract.

Section crawl_then_extract_example.
#[local] Existing Instance lenient_lib.
#[local] Existing Instance failing_sibling.

Lemma read_links_reads_sink_witness :
  let st := run_iterations docs [] 4 (initial_state docs) in
  Extract.read_links (sink_text (sink st)) = sink st.
Proof.
  intros st.
  apply (read_links_reads_sink 5 docs docs [] docs docs (Returned st)).
  - vm_compute; reflexivity.
  - vm_compute; reflexivity.
  - intros u Hu. vm_compute in Hu.
    repeat (apply elem_of_cons in Hu as [->|Hu]);
      [..|by apply elem_of_nil in Hu]; (split; [discriminate|vm_compute; reflexivity]).
Defined.

End crawl_then_extract_example.

Section read_links_results.
Import Extract.
Implicit Types (s t u : string) (a c : ascii) (f : ascii → bool).

Lemma lstrip_head f s :
  lstrip f s = "" ∨ ∃ a t, lstrip f s = String a t ∧ f a = false.
Proof.
  induction s as [|a s IH]; cbn [lstrip]; [by left|].
  destruct (f a) eqn:Ha; [done|]. right. eauto.
Qed.

Lemma rstrip_set_idem f s : rstrip_set f (rstrip_set f s) = rstrip_set f s.
Proof.
  induction s as [|a s IH]; cbn [rstrip_set]; [done|].
  destruct (rstrip_set f s) as [|b r] eqn:Hr.
  - destruct (f a) eqn:Ha; [done|]. cbn [rstrip_set]. by rewrite Ha.
  - cbn [rstrip_set] in *. by rewrite IH.
Qed.

Lemma strip_idem s : strip (strip s) = strip s.
Proof.
  unfold strip. destruct (lstrip_head is_space s) as [->|(a & t & -> & Ha)]; [done|].
  destruct (rstrip_set is_space (String a t)) as [|b r] eqn:Hr; [done|].
  assert (b = a) as ->.
  { cbn [rstrip_set] in Hr. destruct (rstrip_set is_space t);
      [destruct (is_space a)|]; congruence. }
  cbn [lstrip]. rewrite Ha, <-Hr. apply rstrip_set_idem.
Qed.

(** X15: whatever the link file holds, [read_links] yields no empty string
    and no string with white space at an end: blank lines are skipped and
    the ends of the others are trimmed. *)
Theorem read_links_trimmed content u :
  u ∈ read_links content → u ≠ "" ∧ strip u = u.
Proof.
  unfold read_links. intros [Hin Hne]%list_elem_of_In%filter_In.
  apply list_elem_of_In, list_elem_of_fmap in Hin as (line & -> & _).
  split; [by apply nonempty_true|apply strip_idem].
Qed.

End read_links_results.

Lemma read_links_trimmed_witness :
  let content :=
    "  https://x.com/a " +:+ String Extract.cr (String Extract.lf "")
    +:+ String Extract.lf "" +:+ "https://x.com/b" in
  Extract.read_links content = ["https://x.com/a"; "https://x.com/b"]
  ∧ "https://x.com/a" ≠ "" ∧ Extract.strip "https://x.com/a" = "https://x.com/a".
Proof.
  intros content.
  assert (Extract.read_links content = ["https://x.com/a"; "https://x.com/b"])
    as Hrun by (vm_compute; reflexivity).
  split; [exact Hrun|].
  apply (read_links_trimmed content). rewrite Hrun. left.
Defined.

(** ** The base prefix on the command line *)

Section main_base_prefix.
Context `{UrlLib} `{Web}.

(** X16: [main] strips the slashes that end the base prefix before it
    crawls: a run does not depend on how many of them are given. *)
Theorem main_base_prefix_trailing_slashes fuel start_url base_prefix exclude k :
  main fuel start_url (base_prefix +:+ replicate k "/") exclude
  = main fuel start_url base_prefix exclude.
Proof. unfold main. by rewrite rstrip_app_replicate. Qed.

End main_base_prefix.
